(** * go-modules: the module registry and the base module implementation

    A shallow embedding of [modules.go] (the registry with its two indices)
    and of [generic-module.go] (the base implementation meant for struct
    embedding), in their later generic-id / specific-id form.

    Conventions.
    - A Go [map[string]V] that is stored somewhere is a [gmap string V]; the
      result of reading a map that may be [nil] is an [option]: [None] is the
      [nil] map.  Indexing and [len] on it are [index] and [len] below, with
      Go's behaviour on [nil] (the zero value, length 0).
    - A [nil] interface value ([error], [Module]) is [None].
    - Go's [int] counters are [nat]: a count is bounded by the number of
      entries held in memory and cannot wrap.
    - A function that mutates the package-level variables takes the [World]
      and returns the new one next to its Go result. *)

From stdpp Require Import gmap strings list fin_maps.

Open Scope string_scope.

(** ** Go built-ins on maps that may be nil *)

(** [m[key]] where [m] may be the nil map: reading a nil map yields the zero
    value. *)
Definition index {V} (m : option (gmap string V)) (key : string) : option V :=
  m ≫= (.!! key).

(** [len(m)] where [m] may be the nil map. *)
Definition len {V} (m : option (gmap string V)) : nat :=
  from_option size 0 m.

(** ** Errors *)

(** The value built by [fmt.Errorf(format, args...)].  The format string is
    kept as written in the source and the arguments next to it; the rendering
    of the verbs is left to [fmt]. *)
Inductive error : Type :=
  Errorf (format : string) (args : list string).

#[global] Instance error_eq_dec : EqDecision error.
Proof. solve_decision. Defined.

(** ** modules.go: the Module interface *)

(** [type ParameterMap map[string]string] *)
Abbreviation ParameterMap := (gmap string string).

(** A [*ParameterMap]: [None] is the nil pointer, [Some l] points to the map
    allocated at [l]. *)
Abbreviation ParameterMapPtr := (option positive).

(** A non-nil value of interface type [Module].  Every module of the
    repository is a pointer to a struct, so the value is the address it
    holds; [==] on two such values is equality of the addresses. *)
Inductive Module : Type :=
  ModuleAt (address : positive).

#[global] Instance Module_eq_dec : EqDecision Module.
Proof. solve_decision. Defined.

(** What the methods without arguments of the interface return for one
    module at the time of a call ([Type_] is the method [Type]).  The hooks
    [Register] and [Unregister] are side-effecting methods of the module: the
    registry sees only the [error] they return, and every invocation is
    recorded in the [World] (see [hookCalls]).  [Configure] and [Duplicate]
    are not called by the registry; the ones of the base implementation are
    in [GenericModule] below. *)
Record Methods : Type := mkMethods {
  Name : string; Version : string;
  GenericId : string; SpecificId : string; Type_ : string;
  Register : option error; Unregister : option error;
  Parameters : ParameterMapPtr; Ready : bool }.

(** [type ModuleMap map[string]Module], keyed by specific id, and
    [type FullModuleMap map[string]ModuleMap], keyed by generic id. *)
Abbreviation ModuleMap := (gmap string Module).
Abbreviation FullModuleMap := (gmap string (gmap string Module)).

(** One invocation of a lifecycle hook of a module. *)
Inductive HookCall : Type :=
  | CallRegister (module : Module)
  | CallUnregister (module : Module).

#[global] Instance HookCall_eq_dec : EqDecision HookCall.
Proof. solve_decision. Defined.

(** The package-level variables, and the hook invocations made so far. *)
Record World : Type := mkWorld {
  registeredModulesByType : gmap string FullModuleMap;
  registeredModulesById : FullModuleMap;
  hookCalls : list HookCall }.

(** [func init()]: both indices are made empty. *)
Definition init : World :=
  {| registeredModulesByType := ∅; registeredModulesById := ∅; hookCalls := [] |}.

(** ** modules.go: the registry *)

(** The first key at which a [for id, m := range ... { if m == module ... }]
    loop, visiting the entries in the order of [entries], finds [module]. *)
Fixpoint range_find (module : Module) (entries : list (string * Module))
  : option string :=
  match entries with
  | [] => None
  | (id, m) :: rest =>
      if decide (m = module) then Some id else range_find module rest
  end.

(** The order in which [range] visits a map is not specified by Go and may
    differ from one loop to the next; it visits every entry once.  An
    iteration order is admissible when it lists the entries of the map. *)
Definition range_order (range : ModuleMap → list (string * Module)) : Prop :=
  ∀ m, range m ≡ₚ map_to_list m.

Section registry.

(** Dynamic dispatch: what the methods of each module return. *)
Variable impl : Module → Methods.

(** The iteration order of the [range] loop of [UnregisterModule]. *)
Variable range : ModuleMap → list (string * Module).

(** [impl] is what the methods answer during the whole call: the generic and
    the specific id are asked before the [Register] hook runs, the type
    after it. *)
Definition RegisterModule (module : Module) (w : World)
  : option error * World :=
  let genericModuleId := GenericId (impl module) in
  let specificModuleId := SpecificId (impl module) in
  match index (registeredModulesById w !! genericModuleId) specificModuleId with
  | Some _ =>
      (Some (Errorf "id colision detected : %q / %q"
               [genericModuleId; specificModuleId]), w)
  | None =>
      (* err := module.Register() *)
      let calls := (hookCalls w ++ [CallRegister module])%list in
      match Register (impl module) with
      | Some err =>
          (Some err, mkWorld (registeredModulesByType w)
                             (registeredModulesById w) calls)
      | None =>
          let moduleType := Type_ (impl module) in
          let byType := registeredModulesByType w in
          let byId := registeredModulesById w in
          let byType :=
            if byType !! moduleType is None
            then <[moduleType := ∅]> byType else byType in
          let byType :=
            if index (byType !! moduleType) genericModuleId is None
            then alter (insert genericModuleId ∅) moduleType byType
            else byType in
          let byId :=
            if byId !! genericModuleId is None
            then <[genericModuleId := ∅]> byId else byId in
          let byType :=
            alter (alter (insert specificModuleId module) genericModuleId)
                  moduleType byType in
          let byId :=
            alter (insert specificModuleId module) genericModuleId byId in
          (None, mkWorld byType byId calls)
      end
  end.

Definition UnregisterModule (module : Module) (w : World)
  : option error * World :=
  let moduleType := Type_ (impl module) in
  let genericModuleId := GenericId (impl module) in
  let specificModuleId := SpecificId (impl module) in
  (* typeModuleMap is the bucket stored in the index, not a copy *)
  let typeModuleMap :=
    index (registeredModulesByType w !! moduleType) genericModuleId in
  match range_find module (from_option range [] typeModuleMap) with
  | Some id =>
      let byType := registeredModulesByType w in
      let byId := registeredModulesById w in
      (* Remove module from modules by type map. *)
      let byType :=
        alter (alter (delete id) genericModuleId) moduleType byType in
      let byType :=
        if (len (index (byType !! moduleType) genericModuleId) =? 0)%nat
        then alter (delete genericModuleId) moduleType byType
        else byType in
      let byType :=
        if (len (byType !! moduleType) =? 0)%nat
        then delete moduleType byType else byType in
      (* Remove module from modules by id map. *)
      let byId := alter (delete specificModuleId) genericModuleId byId in
      let byId :=
        if (len (byId !! genericModuleId) =? 0)%nat
        then delete genericModuleId byId else byId in
      (None, mkWorld byType byId (hookCalls w))
  | None => (Some (Errorf "module not found" []), w)
  end.

End registry.

Definition GetModulesByType (moduleType : string) (w : World)
  : option FullModuleMap :=
  registeredModulesByType w !! moduleType.

Definition countFullModuleMap (fullModuleMap : option FullModuleMap) : nat :=
  match fullModuleMap with
  | None => 0
  | Some fm => map_fold (λ _ s count, (count + size s)%nat) 0 fm
  end.

Definition GetModuleCountByType (moduleType : string) (w : World) : nat :=
  countFullModuleMap (GetModulesByType moduleType w).

Definition GetModulesByGenericId (genericModuleId : string) (w : World)
  : option ModuleMap :=
  registeredModulesById w !! genericModuleId.

Definition GetModuleCountByGenericId (genericModuleId : string) (w : World)
  : nat :=
  len (GetModulesByGenericId genericModuleId w).

Definition GetModuleById (genericModuleId specificModuleId : string)
  (w : World) : option Module :=
  index (registeredModulesById w !! genericModuleId) specificModuleId.

Definition GetDefaultModuleByGenericId (genericModuleId : string) (w : World)
  : option Module :=
  index (registeredModulesById w !! genericModuleId) "".

Definition GetAllModules (w : World) : option FullModuleMap :=
  Some (registeredModulesById w).

Definition GetAllModulesCount (w : World) : nat :=
  countFullModuleMap (GetAllModules w).

(** ** generic-module.go: the base implementation *)

(** The memory holding the [ParameterMap]s that [*ParameterMap] values point
    to. *)
Abbreviation Heap := (gmap positive ParameterMap).

Module GenericModule.

(** [type GenericModule struct].  The methods have pointer receivers and
    assign through them: a method that does so returns the updated struct
    next to its Go result. *)
Record t : Type := mk {
  name : string;
  version : string;
  genericId : string;
  specificId : string;
  moduleType : string;
  parameters : ParameterMapPtr;
  ready : bool }.

Definition Name (gm : t) : string := name gm.

Definition Version (gm : t) : string := version gm.

Definition GenericId (gm : t) : string := genericId gm.

Definition SpecificId (gm : t) : string := specificId gm.

Definition Type_ (gm : t) : string := moduleType gm.

Definition Register (gm : t) : option error := None.

Definition Unregister (gm : t) : option error := None.

Definition Parameters (gm : t) : ParameterMapPtr := parameters gm.

Definition Configure (params : ParameterMapPtr) (gm : t)
  : option error * t :=
  (None,
   mk (name gm) (version gm) (genericId gm) (specificId gm) (moduleType gm)
      params (ready gm)).

Definition Duplicate (specificId : string) (gm : t)
  : option Module * option error :=
  (None, Some (Errorf "generic module can not be duplicated" [])).

Definition Ready (gm : t) : bool := ready gm.

Definition SetReady (isReady : bool) (gm : t) : t :=
  mk (name gm) (version gm) (genericId gm) (specificId gm) (moduleType gm)
     (parameters gm) isReady.

(** [*GenericModule] satisfies the [Module] interface: what a module that
    is, or embeds without overriding, the [GenericModule] [gm] answers. *)
Definition methods (gm : t) : Methods :=
  mkMethods (Name gm) (Version gm) (GenericId gm) (SpecificId gm) (Type_ gm)
            (Register gm) (Unregister gm) (Parameters gm) (Ready gm).

End GenericModule.

(** [NewGenericModule]: [&ParameterMap{}] allocates a new, empty map. *)
Definition NewGenericModule (name version genericId specificId moduleType : string)
  (h : Heap) : GenericModule.t * Heap :=
  let p := fresh (dom h) in
  (GenericModule.mk name version genericId specificId moduleType (Some p) false,
   <[p := ∅]> h).

(** * Vocabulary of the verification *)

(** ** The two update patterns of the indices

    Both indices are maps of buckets, and the registry writes them in two
    ways only.  [upd k f m] is [if m[k] == nil { m[k] = make(...) }] followed
    by the update [f] of the bucket [m[k]].  [prune k f m] is the update [f]
    of the bucket [m[k]] followed by
    [if len(m[k]) == 0 { delete(m, k) }]. *)

Definition upd {X} (k : string) (f : gmap string X → gmap string X)
  (m : gmap string (gmap string X)) : gmap string (gmap string X) :=
  alter f k (if m !! k is None then <[k := ∅]> m else m).

Definition prune {X} (k : string) (f : gmap string X → gmap string X)
  (m : gmap string (gmap string X)) : gmap string (gmap string X) :=
  let m' := alter f k m in
  if (len (m' !! k) =? 0)%nat then delete k m' else m'.

(** The module stored in the by-type index under a type, a generic id and a
    specific id, and the one stored in the by-id index under a generic id
    and a specific id. *)
Definition byType_at (w : World) (t g s : string) : option Module :=
  index (index (GetModulesByType t w) g) s.

Definition byId_at (w : World) (g s : string) : option Module :=
  index (GetModulesByGenericId g w) s.

(** The number of modules held by a (non-nil) [FullModuleMap]. *)
Definition count (fm : FullModuleMap) : nat :=
  countFullModuleMap (Some fm).

(** ** Invariants *)

(** No bucket of a map of buckets is empty. *)
Definition no_empty_bucket {X} (m : gmap string (gmap string X)) : Prop :=
  ∀ k b, m !! k = Some b → b ≠ ∅.

(** Neither index retains an empty container, at any level. *)
Definition no_empty_containers (w : World) : Prop :=
  no_empty_bucket (registeredModulesByType w) ∧
  (∀ t fm, registeredModulesByType w !! t = Some fm → no_empty_bucket fm) ∧
  no_empty_bucket (registeredModulesById w).

(** In the invariants and in the reachable states below, [stable] is a set
    of modules whose identity methods answer the same at every call;
    [everyone] is the set of all modules. *)
Definition everyone (m : Module) : Prop := True.

(** A module of [stable] is stored in the by-type index only under the keys
    its identity methods report. *)
Definition keyed_by_identity (stable : Module → Prop) (impl : Module → Methods)
  (w : World) : Prop :=
  ∀ t g s m, stable m → byType_at w t g s = Some m →
    Type_ (impl m) = t ∧ GenericId (impl m) = g ∧ SpecificId (impl m) = s.

(** A module of [stable] that the by-id index holds is held by the by-type
    index, under its type and the same ids. *)
Definition byId_in_byType (stable : Module → Prop) (impl : Module → Methods)
  (w : World) : Prop :=
  ∀ g s m, stable m → byId_at w g s = Some m →
    byType_at w (Type_ (impl m)) g s = Some m.

(** A module that the by-type index holds is held by the by-id index under
    the same ids. *)
Definition byType_in_byId (w : World) : Prop :=
  ∀ t g s m, byType_at w t g s = Some m → byId_at w g s = Some m.

Definition consistent (stable : Module → Prop) (impl : Module → Methods)
  (w : World) : Prop :=
  keyed_by_identity stable impl w ∧ byId_in_byType stable impl w ∧
  no_empty_containers w.

(** ** Reachable states *)

(** The identity methods of the modules of [stable] answer the same under
    [impl'] as under [impl].  What the hooks return may differ, and so may
    the identity of the other modules. *)
Definition same_identity (stable : Module → Prop)
  (impl impl' : Module → Methods) : Prop :=
  ∀ m, stable m →
       GenericId (impl' m) = GenericId (impl m) ∧
       SpecificId (impl' m) = SpecificId (impl m) ∧
       Type_ (impl' m) = Type_ (impl m).

(** The states the registry is in after any sequence of [RegisterModule] and
    [UnregisterModule] calls, successful or not, on any modules, when the
    identity of the modules of [stable] is the one given by [impl]
    throughout; each [range] loop may visit its map in any order. *)
Inductive reachable (stable : Module → Prop) (impl : Module → Methods)
  : World → Prop :=
  | reachable_init : reachable stable impl init
  | reachable_RegisterModule impl' module w :
      same_identity stable impl impl' →
      reachable stable impl w →
      reachable stable impl (RegisterModule impl' module w).2
  | reachable_UnregisterModule impl' range module w :
      same_identity stable impl impl' →
      range_order range →
      reachable stable impl w →
      reachable stable impl (UnregisterModule impl' range module w).2.

(** The number of [Unregister] hook invocations on [module] in a log. *)
Definition unregister_calls (module : Module) (calls : list HookCall) : nat :=
  length (filter (λ c, c = CallUnregister module) calls).

(** The number of [Register] hook invocations on [module] in a log. *)
Definition register_calls (module : Module) (calls : list HookCall) : nat :=
  length (filter (λ c, c = CallRegister module) calls).

(** ** Modules of the examples

    The module registered by [examples/modules/plugin], the one registered
    by the example [main], a module with empty identity strings, and a
    module whose [Register] hook fails.  Every other address holds a second
    instance with the identity of the plugin module. *)

Definition simplePluginModule : GenericModule.t * Heap :=
  NewGenericModule "Simple Plugin Module" "1.0.0"
                   "simple-plugin-module" "" "sample-module" ∅.

Definition completeModuleSpecific : GenericModule.t * Heap :=
  NewGenericModule "Complete Module / Specific" "1.0.0"
                   "complete-module" "specific" "sample-module"
                   simplePluginModule.2.

Definition unnamedModule : GenericModule.t * Heap :=
  NewGenericModule "" "" "" "" "" completeModuleSpecific.2.

Definition failingModule : Methods :=
  mkMethods "Failing Module" "1.0.0" "failing-module" "" "sample-module"
            (Some (Errorf "can not register" [])) None None false.

Definition example_impl (module : Module) : Methods :=
  match module with
  | ModuleAt 1 => GenericModule.methods simplePluginModule.1
  | ModuleAt 2 => GenericModule.methods completeModuleSpecific.1
  | ModuleAt 3 => GenericModule.methods unnamedModule.1
  | ModuleAt 4 => failingModule
  | ModuleAt _ => GenericModule.methods simplePluginModule.1
  end.

(** The registry after the plugin module and the specific complete module
    have been registered, in this order. *)
Definition example_world : World :=
  (RegisterModule example_impl (ModuleAt 2)
     (RegisterModule example_impl (ModuleAt 1) init).2).2.

(** ** Vocabulary of the further properties *)

(** The sum of a measure over the buckets of a map, as a
    [for _, b := range m { total = total + sz(b) }] loop computes it. *)
Definition total {V} (sz : V → nat) (m : gmap string V) : nat :=
  map_fold (λ _ b acc, (acc + sz b)%nat) 0 m.

(** The number of modules the by-type index holds over all its types: the
    sum of [GetModuleCountByType] over the types of the index. *)
Definition countAllTypes (w : World) : nat :=
  total count (registeredModulesByType w).

(** The calls that write to a [GenericModule] through its pointer, and their
    effect on the struct. *)
Inductive Mutation : Type :=
  | DoConfigure (params : ParameterMapPtr)
  | DoSetReady (isReady : bool).

Definition mutate (gm : GenericModule.t) (c : Mutation) : GenericModule.t :=
  match c with
  | DoConfigure params => (GenericModule.Configure params gm).2
  | DoSetReady isReady => GenericModule.SetReady isReady gm
  end.

(** * The earlier form: one id per module

    The registry and the base implementation as they were before the id was
    split in two: [Id] in place of [GenericId] and [SpecificId], indices one
    level shallower, no [Duplicate]. *)

Module SingleId.

(** What the methods without arguments of the earlier [Module] interface
    return for one module at the time of a call. *)
Record Methods : Type := mkMethods {
  Name : string; Version : string; Id : string; Type_ : string;
  Register : option error; Unregister : option error;
  Parameters : ParameterMapPtr; Ready : bool }.

(** The package-level variables, and the hook invocations made so far. *)
Record World : Type := mkWorld {
  registeredModulesByType : gmap string ModuleMap;
  registeredModulesById : ModuleMap;
  hookCalls : list HookCall }.

(** [func init()] *)
Definition init : World :=
  {| registeredModulesByType := ∅; registeredModulesById := ∅; hookCalls := [] |}.

Section registry.

Variable impl : Module → Methods.
Variable range : ModuleMap → list (string * Module).

Definition RegisterModule (module : Module) (w : World)
  : option error * World :=
  let moduleId := Id (impl module) in
  match registeredModulesById w !! moduleId with
  | Some _ => (Some (Errorf "id colision detected : %q" [moduleId]), w)
  | None =>
      (* err := module.Register() *)
      let calls := (hookCalls w ++ [CallRegister module])%list in
      match Register (impl module) with
      | Some err =>
          (Some err, mkWorld (registeredModulesByType w)
                             (registeredModulesById w) calls)
      | None =>
          let moduleType := Type_ (impl module) in
          let byType := registeredModulesByType w in
          let byType :=
            if byType !! moduleType is None
            then <[moduleType := ∅]> byType else byType in
          let byType := alter (insert moduleId module) moduleType byType in
          let byId := <[moduleId := module]> (registeredModulesById w) in
          (None, mkWorld byType byId calls)
      end
  end.

Definition UnregisterModule (module : Module) (w : World)
  : option error * World :=
  let moduleType := Type_ (impl module) in
  (* typeModuleList is the bucket stored in the index, not a copy *)
  let typeModuleList := registeredModulesByType w !! moduleType in
  if negb (len typeModuleList =? 0)%nat then
    match range_find module (from_option range [] typeModuleList) with
    | Some id =>
        let byType :=
          alter (delete id) moduleType (registeredModulesByType w) in
        let byType :=
          if (len (byType !! moduleType) =? 0)%nat
          then delete moduleType byType else byType in
        let moduleId := Id (impl module) in
        let byId := delete moduleId (registeredModulesById w) in
        (None, mkWorld byType byId (hookCalls w))
    | None => (Some (Errorf "module not found" []), w)
    end
  else (Some (Errorf "module not found" []), w).

End registry.

Definition GetModulesByType (moduleType : string) (w : World)
  : option ModuleMap :=
  registeredModulesByType w !! moduleType.

Definition GetModuleById (moduleId : string) (w : World) : option Module :=
  registeredModulesById w !! moduleId.

Definition GetAllModules (w : World) : option ModuleMap :=
  Some (registeredModulesById w).

(** [type GenericModule struct] of the earlier form, and its methods. *)
Module GenericModule.

Record t : Type := mk {
  name : string;
  version : string;
  id : string;
  moduleType : string;
  parameters : ParameterMapPtr;
  ready : bool }.

Definition Name (gm : t) : string := name gm.

Definition Version (gm : t) : string := version gm.

Definition Id (gm : t) : string := id gm.

Definition Type_ (gm : t) : string := moduleType gm.

Definition Register (gm : t) : option error := None.

Definition Unregister (gm : t) : option error := None.

Definition Parameters (gm : t) : ParameterMapPtr := parameters gm.

Definition Configure (params : ParameterMapPtr) (gm : t)
  : option error * t :=
  (None, mk (name gm) (version gm) (id gm) (moduleType gm) params (ready gm)).

Definition Ready (gm : t) : bool := ready gm.

Definition SetReady (isReady : bool) (gm : t) : t :=
  mk (name gm) (version gm) (id gm) (moduleType gm) (parameters gm) isReady.

(** What a module that is, or embeds without overriding, the [GenericModule]
    [gm] answers. *)
Definition methods (gm : t) : Methods :=
  mkMethods (Name gm) (Version gm) (Id gm) (Type_ gm)
            (Register gm) (Unregister gm) (Parameters gm) (Ready gm).

End GenericModule.

Definition NewGenericModule (name version id moduleType : string) (h : Heap)
  : GenericModule.t * Heap :=
  let p := fresh (dom h) in
  (GenericModule.mk name version id moduleType (Some p) false, <[p := ∅]> h).

(** The identity methods of every module answer the same under [impl'] as
    under [impl]. *)
Definition same_identity (impl impl' : Module → Methods) : Prop :=
  ∀ m, Id (impl' m) = Id (impl m) ∧ Type_ (impl' m) = Type_ (impl m).

(** The states of the earlier registry after any sequence of calls, when no
    module changes identity. *)
Inductive reachable (impl : Module → Methods) : World → Prop :=
  | reachable_init : reachable impl init
  | reachable_RegisterModule impl' module w :
      same_identity impl impl' →
      reachable impl w →
      reachable impl (RegisterModule impl' module w).2
  | reachable_UnregisterModule impl' range module w :
      same_identity impl impl' →
      range_order range →
      reachable impl w →
      reachable impl (UnregisterModule impl' range module w).2.

End SingleId.

(** ** The earlier registry as the later one restricted to default instances *)

(** A module of the earlier form seen as a module of the later form: its id
    is the generic id and it is the default instance. *)
Definition as_default (ms : SingleId.Methods) : Methods :=
  mkMethods (SingleId.Name ms) (SingleId.Version ms) (SingleId.Id ms) ""
            (SingleId.Type_ ms) (SingleId.Register ms) (SingleId.Unregister ms)
            (SingleId.Parameters ms) (SingleId.Ready ms).

(** The default instance of each bucket of a [FullModuleMap]. *)
Definition defaults (fm : FullModuleMap) : ModuleMap :=
  omap (.!! "") fm.

(** The state of the earlier registry that holds the default instances of a
    state of the later one. *)
Definition flatten (w : World) : SingleId.World :=
  SingleId.mkWorld (defaults <$> registeredModulesByType w)
                   (defaults (registeredModulesById w))
                   (hookCalls w).

(** Every bucket holds a default instance and nothing else. *)
Definition only_defaults (fm : FullModuleMap) : Prop :=
  ∀ g b, fm !! g = Some b → ∃ m : Module, b = {[ "" := m ]}.

(** The modules of the earlier examples: [SimpleModule2] at the first
    address, and at every other address a module with the strings of the
    complete module. *)
Definition example_impl1 (module : Module) : SingleId.Methods :=
  match module with
  | ModuleAt 1 =>
      SingleId.GenericModule.methods
        (SingleId.NewGenericModule "Simple Module 2" "1.0.0"
           "simple-module-2" "dummy-module" ∅).1
  | ModuleAt _ =>
      SingleId.GenericModule.methods
        (SingleId.NewGenericModule "Complete Module" "1.0.0"
           "complete-module" "sample-module" ∅).1
  end.

(** The later registry after both have been registered as default
    instances. *)
Definition example_world1 : World :=
  (RegisterModule (λ m, as_default (example_impl1 m)) (ModuleAt 2)
     (RegisterModule (λ m, as_default (example_impl1 m)) (ModuleAt 1)
        init).2).2.

(** * examples/modules: the complete module *)

(** What a call does: it returns, or it panics. *)
Inductive result (A : Type) : Type :=
  | Returns (a : A)
  | Panics.

Arguments Returns {A} a.
Arguments Panics {A}.

Module CompleteModule.

(** [type CompleteModule struct].  The embedded [*GenericModule] is the one
    built for this module by [init]: it is not nil and no other module
    holds it, so the struct it points to is kept in place of the pointer. *)
Record t : Type := mk {
  base : SingleId.GenericModule.t;
  text1 : string;
  text2 : string }.

(** [Parameters] allocates a new map on every call. *)
Definition Parameters (cm : t) (h : Heap) : ParameterMapPtr * Heap :=
  let p := fresh (dom h) in
  (Some p, <[p := <["text1" := ""]> (<["text2" := "Default text"]> ∅)]> h).

(** Reading the key [text1] dereferences [parameters] first: a nil pointer
    panics.  A pointer that is not nil always points into the heap in Go;
    the model panics on any other as well. *)
Definition Configure (parameters : ParameterMapPtr) (h : Heap) (cm : t)
  : result (option error * t) :=
  match parameters ≫= (h !!.) with
  | None => Panics
  | Some params =>
      match params !! "text1" with
      | None =>
          Returns (Some (Errorf "required parameter text1 is missing" []), cm)
      | Some text1Parameter =>
          let text2Parameter := default "" (params !! "text2") in
          Returns (None,
                   mk (SingleId.GenericModule.SetReady true (base cm))
                      text1Parameter text2Parameter)
      end
  end.

(** [DoWork] returns its error next to the lines it has written to the
    standard output: [fmt.Println] writes its operands separated by a space
    and ends the line. *)
Definition DoWork (cm : t) : option error * list string :=
  if negb (SingleId.GenericModule.Ready (base cm))
  then (Some (Errorf "module not ready" []), [])
  else (None, ["text1 : " +:+ text1 cm; "text2 : " +:+ text2 cm]).

(** The module built by [init]. *)
Definition new (h : Heap) : t * Heap :=
  (mk (SingleId.NewGenericModule "Complete Module" "1.0.0" "complete-module"
         "sample-module" h).1 "" "",
   (SingleId.NewGenericModule "Complete Module" "1.0.0" "complete-module"
      "sample-module" h).2).

End CompleteModule.

(** A sequence of [Configure] calls on a complete module, each with its
    pointer and the heap at the time of the call: the errors returned, in
    order, and the module in the end; or a panic. *)
Fixpoint configure_all (calls : list (ParameterMapPtr * Heap))
  (cm : CompleteModule.t) : result (list (option error) * CompleteModule.t) :=
  match calls with
  | [] => Returns ([], cm)
  | (parameters, h) :: calls =>
      match CompleteModule.Configure parameters h cm with
      | Panics => Panics
      | Returns (err, cm') =>
          match configure_all calls cm' with
          | Panics => Panics
          | Returns (errs, cm'') => Returns (err :: errs, cm'')
          end
      end
  end.

(** ** A module that changes its specific id

    Two modules of the same type and generic id, with the specific ids [b]
    and [c]; later the second one reports the specific id [b]. *)

Definition drift_before (module : Module) : Methods :=
  match module with
  | ModuleAt 1 => mkMethods "A" "1.0.0" "g" "b" "t" None None None false
  | ModuleAt _ => mkMethods "B" "1.0.0" "g" "c" "t" None None None false
  end.

Definition drift_after (module : Module) : Methods :=
  match module with
  | ModuleAt 1 => mkMethods "A" "1.0.0" "g" "b" "t" None None None false
  | ModuleAt _ => mkMethods "B" "1.0.0" "g" "b" "t" None None None false
  end.

(** The registry after both modules have been registered and the second
    one, its specific id changed, has been unregistered: the by-type entry
    of the second module and the by-id entry of the first one are gone. *)
Definition drifted_world : World :=
  (UnregisterModule drift_after map_to_list (ModuleAt 2)
     (RegisterModule drift_before (ModuleAt 2)
        (RegisterModule drift_before (ModuleAt 1) init).2).2).2.

(** * Properties of the update patterns *)

Section buckets.
Context {X : Type}.
Implicit Types (m : gmap string (gmap string X)) (b : gmap string X).
Implicit Types (f : gmap string X → gmap string X) (k g s : string).

Lemma upd_insert k f m : upd k f m = <[k := f (default ∅ (m !! k))]> m.
Proof.
  unfold upd. destruct (m !! k) as [b|] eqn:Hk; simpl.
  - apply map_eq; intros k'. rewrite lookup_alter, lookup_insert.
    by case_decide; subst; rewrite ?Hk.
  - by rewrite alter_insert_eq.
Qed.

Lemma lookup_upd k f m k' :
  upd k f m !! k' =
  if decide (k = k') then Some (f (default ∅ (m !! k))) else m !! k'.
Proof. by rewrite upd_insert, lookup_insert. Qed.

Lemma prune_None k f m : m !! k = None → prune k f m = m.
Proof.
  intros Hk. unfold prune; simpl.
  assert (alter f k m = m) as ->.
  { apply map_eq; intros k'. rewrite lookup_alter.
    case_decide; subst; by rewrite ?Hk. }
  rewrite Hk; simpl. by apply delete_id.
Qed.

Lemma prune_Some k f m b :
  m !! k = Some b →
  prune k f m = if decide (f b = ∅) then delete k m else <[k := f b]> m.
Proof.
  intros Hk. unfold prune; simpl.
  assert (alter f k m = <[k := f b]> m) as ->.
  { apply map_eq; intros k'. rewrite lookup_alter, lookup_insert.
    case_decide; subst; by rewrite ?Hk. }
  rewrite lookup_insert_eq; simpl.
  destruct (Nat.eqb_spec (size (f b)) 0) as [Hz|Hz].
  - apply map_size_empty_iff in Hz. rewrite decide_True by done.
    by rewrite delete_insert_eq.
  - rewrite decide_False; [done|]. by rewrite <-map_size_empty_iff.
Qed.

Lemma lookup_prune k f m k' :
  prune k f m !! k' =
  if decide (k = k')
  then b ← m !! k; if decide (f b = ∅) then None else Some (f b)
  else m !! k'.
Proof.
  destruct (m !! k) as [b|] eqn:Hk.
  - rewrite (prune_Some _ _ _ b) by done. simpl.
    destruct (decide (f b = ∅)).
    + rewrite lookup_delete. case_decide; by subst.
    + rewrite lookup_insert. case_decide; by subst.
  - rewrite prune_None by done. case_decide; subst; by rewrite ?Hk.
Qed.

(** *** Reading through the patterns *)

Lemma index_upd_insert g s (x : X) m g' s' :
  index (upd g (insert s x) m !! g') s' =
  if decide (g = g' ∧ s = s') then Some x else index (m !! g') s'.
Proof.
  rewrite lookup_upd. destruct (decide (g = g')) as [<-|Hg]; simpl.
  - rewrite lookup_insert.
    destruct (decide (s = s')) as [<-|Hs].
    + by rewrite decide_True.
    + rewrite decide_False by (by intros [? ?]).
      destruct (m !! g); simpl; [done|]. by rewrite lookup_empty.
  - by rewrite decide_False by (by intros [? ?]).
Qed.

Lemma index_prune_delete g s m g' s' :
  index (prune g (delete s) m !! g') s' =
  if decide (g = g' ∧ s = s') then None else index (m !! g') s'.
Proof.
  rewrite lookup_prune. destruct (decide (g = g')) as [<-|Hg]; simpl.
  - destruct (m !! g) as [b|] eqn:Hb; simpl; [|by case_decide].
    assert (index (if decide (delete s b = ∅) then None
                   else Some (delete s b)) s' = delete s b !! s') as ->.
    { destruct (decide (delete s b = ∅)) as [He|He]; simpl; [|done].
      by rewrite He, lookup_empty. }
    rewrite lookup_delete. destruct (decide (s = s')) as [<-|Hs].
    + by rewrite decide_True.
    + by rewrite decide_False by (by intros [? ?]).
  - by rewrite decide_False by (by intros [? ?]).
Qed.

(** *** Empty buckets *)

Lemma no_empty_bucket_upd_insert g s (x : X) m :
  no_empty_bucket m → no_empty_bucket (upd g (insert s x) m).
Proof.
  intros Hm k b. rewrite lookup_upd. case_decide; [|by apply Hm].
  intros [= <-] He. apply (f_equal (.!! s)) in He.
  by rewrite lookup_insert_eq, lookup_empty in He.
Qed.

Lemma no_empty_bucket_prune k f m :
  no_empty_bucket m → no_empty_bucket (prune k f m).
Proof.
  intros Hm k' b. rewrite lookup_prune. case_decide; [|by apply Hm].
  destruct (m !! k) as [b0|]; simpl; [|done]. by case_decide; intros [= <-].
Qed.

End buckets.

(** *** The by-type index: the patterns one level up *)

Lemma index3_upd_insert t g s (x : Module) (bt : gmap string FullModuleMap)
    t' g' s' :
  index (index (upd t (upd g (insert s x)) bt !! t') g') s' =
  if decide (t = t' ∧ g = g' ∧ s = s') then Some x
  else index (index (bt !! t') g') s'.
Proof.
  rewrite lookup_upd. destruct (decide (t = t')) as [<-|Ht]; simpl.
  - rewrite index_upd_insert.
    destruct (decide (g = g' ∧ s = s')) as [[<- <-]|Hgs].
    + by rewrite decide_True.
    + rewrite decide_False by (intros (_ & ? & ?); by apply Hgs).
      destruct (bt !! t); simpl; [done|]. by rewrite lookup_empty.
  - by rewrite decide_False by (by intros [? ?]).
Qed.

Lemma index3_prune_delete t g s (bt : gmap string FullModuleMap) t' g' s' :
  index (index (prune t (prune g (delete s)) bt !! t') g') s' =
  if decide (t = t' ∧ g = g' ∧ s = s') then None
  else index (index (bt !! t') g') s'.
Proof.
  rewrite lookup_prune. destruct (decide (t = t')) as [<-|Ht]; simpl.
  - destruct (bt !! t) as [fm|] eqn:Hfm; simpl; [|by case_decide].
    pose proof (index_prune_delete g s fm g' s') as Hp.
    assert ((if decide (g = g' ∧ s = s') then None else index (fm !! g') s')
            = if decide (t = t ∧ g = g' ∧ s = s') then None
              else index (fm !! g') s') as <-.
    { destruct (decide (g = g' ∧ s = s')) as [[<- <-]|Hgs].
      - by rewrite decide_True.
      - by rewrite decide_False by (intros (_ & ? & ?); by apply Hgs). }
    rewrite <-Hp.
    destruct (decide (prune g (delete s) fm = ∅)) as [He|He]; simpl; [|done].
    by rewrite He, lookup_empty.
  - by rewrite decide_False by (by intros [? ?]).
Qed.

(** ** Counting *)

Lemma count_empty : count ∅ = 0.
Proof. unfold count; simpl. apply map_fold_empty. Qed.

Lemma countFullModuleMap_default (o : option FullModuleMap) :
  countFullModuleMap o = count (default ∅ o).
Proof. destruct o; simpl; [done|]. by rewrite count_empty. Qed.

Lemma count_insert_fresh k (b : ModuleMap) (fm : FullModuleMap) :
  fm !! k = None → count (<[k := b]> fm) = count fm + size b.
Proof.
  intros Hk. unfold count; simpl.
  rewrite map_fold_insert_L; [done| |done]. intros; lia.
Qed.

Lemma count_delete k (fm : FullModuleMap) :
  count (delete k fm) + len (fm !! k) = count fm.
Proof.
  destruct (fm !! k) as [b|] eqn:Hk; simpl.
  - rewrite <-(insert_delete_id fm k b) at 2 by done.
    by rewrite count_insert_fresh by apply lookup_delete_eq.
  - rewrite delete_id by done. lia.
Qed.

Lemma count_insert k (b : ModuleMap) (fm : FullModuleMap) :
  count (<[k := b]> fm) + len (fm !! k) = count fm + size b.
Proof.
  rewrite <-insert_delete_eq.
  rewrite count_insert_fresh by apply lookup_delete_eq.
  pose proof (count_delete k fm). lia.
Qed.

Lemma count_upd_insert g s (x : Module) (fm : FullModuleMap) :
  index (fm !! g) s = None →
  count (upd g (insert s x) fm) = count fm + 1.
Proof.
  intros Hs. rewrite upd_insert. pose proof (count_insert g
    (<[s := x]> (default ∅ (fm !! g))) fm) as Hc.
  rewrite map_size_insert_None in Hc.
  - destruct (fm !! g); simpl in *; [lia|]. rewrite map_size_empty in Hc. lia.
  - destruct (fm !! g); simpl in *; [done|]. apply lookup_empty.
Qed.

Lemma count_prune_delete g s (x : Module) (fm : FullModuleMap) :
  index (fm !! g) s = Some x →
  count (prune g (delete s) fm) + 1 = count fm.
Proof.
  intros Hs. destruct (fm !! g) as [b|] eqn:Hg; simpl in Hs; [|done].
  rewrite (prune_Some _ _ _ b) by done.
  assert (size (delete s b) + 1 = size b) as Hsz.
  { rewrite map_size_delete, Hs.
    assert (size b ≠ 0); [|simpl; lia].
    apply map_size_non_empty_iff. intros ->. by rewrite lookup_empty in Hs. }
  case_decide as He.
  - rewrite He, map_size_empty in Hsz.
    pose proof (count_delete g fm) as Hc. rewrite Hg in Hc; simpl in Hc. lia.
  - pose proof (count_insert g (delete s b) fm) as Hc.
    rewrite Hg in Hc; simpl in Hc. lia.
Qed.

(** ** The registry code in terms of the patterns *)

Lemma register_byType_code t g s (x : Module) (bt : gmap string FullModuleMap) :
  let bt1 := if bt !! t is None then <[t := ∅]> bt else bt in
  let bt2 :=
    if index (bt1 !! t) g is None then alter (insert g ∅) t bt1 else bt1 in
  alter (alter (insert s x) g) t bt2 = upd t (upd g (insert s x)) bt.
Proof.
  intros bt1 bt2. unfold upd at 1. fold bt1.
  assert (∃ fm, bt1 !! t = Some fm) as [fm Hfm].
  { unfold bt1. destruct (bt !! t) eqn:Ht; [by eauto|].
    rewrite lookup_insert_eq. by eauto. }
  apply map_eq; intros t'. rewrite !lookup_alter. unfold bt2.
  rewrite Hfm; simpl. destruct (decide (t = t')) as [<-|Ht'].
  - unfold upd. destruct (fm !! g) eqn:Hg.
    + by rewrite Hfm.
    + by rewrite lookup_alter_eq, Hfm.
  - destruct (fm !! g); [done|]. by rewrite lookup_alter_ne.
Qed.

Lemma unregister_byType_code t g id (bt : gmap string FullModuleMap) :
  let bt1 := alter (alter (delete id) g) t bt in
  let bt2 :=
    if (len (index (bt1 !! t) g) =? 0)%nat
    then alter (delete g) t bt1 else bt1 in
  (if (len (bt2 !! t) =? 0)%nat then delete t bt2 else bt2)
  = prune t (prune g (delete id)) bt.
Proof.
  intros bt1 bt2. unfold prune at 1.
  assert (bt2 = alter (prune g (delete id)) t bt) as ->; [|done].
  apply map_eq; intros t'. unfold bt2, bt1.
  rewrite lookup_alter_eq. destruct (decide (t = t')) as [<-|Ht'].
  - rewrite (lookup_alter_eq (prune g (delete id))).
    destruct (bt !! t) as [fm|] eqn:Hfm; simpl.
    + unfold prune; simpl.
      destruct (len (alter (delete id) g fm !! g) =? 0)%nat.
      * by rewrite !lookup_alter_eq, Hfm.
      * by rewrite lookup_alter_eq, Hfm.
    + by rewrite !lookup_alter_eq, Hfm.
  - rewrite (lookup_alter_ne (prune g (delete id))) by done.
    destruct (len (index (alter (delete id) g <$> bt !! t) g) =? 0)%nat;
      by rewrite !lookup_alter_ne by done.
Qed.

(** ** The loop of [UnregisterModule] *)

Lemma range_find_Some module entries id :
  range_find module entries = Some id → (id, module) ∈ entries.
Proof.
  induction entries as [|[id' m] rest IH]; simpl; [done|].
  case_decide as Hm.
  - intros [= ->]. subst m. apply list_elem_of_here.
  - intros Hr. apply list_elem_of_further. by apply IH.
Qed.

Lemma range_find_None module entries :
  range_find module entries = None ↔ ∀ id, (id, module) ∉ entries.
Proof.
  induction entries as [|[id' m] rest IH]; simpl.
  - split; [|done]. intros _ id Hin. by apply elem_of_nil in Hin.
  - case_decide as Hm.
    + split; [done|]. intros Hno. subst m.
      destruct (Hno id'). apply list_elem_of_here.
    + rewrite IH. split.
      * intros Hno id Hin. apply elem_of_cons in Hin as [[= -> ->]|Hin]; [done|].
        by apply (Hno id).
      * intros Hno id Hin. apply (Hno id). by apply list_elem_of_further.
Qed.

Lemma range_find_is_Some module entries id :
  (id, module) ∈ entries → is_Some (range_find module entries).
Proof.
  intros Hin. destruct (range_find module entries) eqn:Hr; [by eauto|].
  rewrite range_find_None in Hr. by destruct (Hr id).
Qed.

Lemma elem_of_range range (b : ModuleMap) id m :
  range_order range → (id, m) ∈ range b ↔ b !! id = Some m.
Proof. intros Hr. by rewrite (Hr b), elem_of_map_to_list. Qed.

(** ** The three outcomes of [RegisterModule], the two of [UnregisterModule] *)

Section outcomes.
Variable impl : Module → Methods.
Variable module : Module.
Variable w : World.

Let t := Type_ (impl module).
Let g := GenericId (impl module).
Let s := SpecificId (impl module).

Lemma RegisterModule_collision m :
  GetModuleById g s w = Some m →
  RegisterModule impl module w =
  (Some (Errorf "id colision detected : %q / %q" [g; s]), w).
Proof. subst t g s. unfold RegisterModule, GetModuleById. by intros ->. Qed.

Lemma RegisterModule_hook_failure err :
  GetModuleById g s w = None →
  Register (impl module) = Some err →
  RegisterModule impl module w =
  (Some err,
   mkWorld (registeredModulesByType w) (registeredModulesById w)
           (hookCalls w ++ [CallRegister module])).
Proof. subst t g s. unfold RegisterModule, GetModuleById. by intros -> ->. Qed.

Lemma RegisterModule_inserted :
  GetModuleById g s w = None →
  Register (impl module) = None →
  RegisterModule impl module w =
  (None,
   mkWorld (upd t (upd g (insert s module)) (registeredModulesByType w))
           (upd g (insert s module) (registeredModulesById w))
           (hookCalls w ++ [CallRegister module])).
Proof.
  subst t g s. unfold RegisterModule, GetModuleById. intros -> ->. cbv zeta.
  by rewrite register_byType_code.
Qed.

Lemma UnregisterModule_not_found range :
  range_find module
    (from_option range [] (index (registeredModulesByType w !! t) g)) = None →
  UnregisterModule impl range module w =
  (Some (Errorf "module not found" []), w).
Proof. subst t g s. unfold UnregisterModule. by intros ->. Qed.

Lemma UnregisterModule_removed range id :
  range_find module
    (from_option range [] (index (registeredModulesByType w !! t) g)) = Some id →
  UnregisterModule impl range module w =
  (None,
   mkWorld (prune t (prune g (delete id)) (registeredModulesByType w))
           (prune g (delete s) (registeredModulesById w))
           (hookCalls w)).
Proof.
  subst t g s. unfold UnregisterModule. intros ->. cbv zeta.
  by rewrite unregister_byType_code.
Qed.

(** The loop finds a key exactly when the bucket holds the module, and the
    key it finds is one of those under which the bucket holds it, whatever
    the iteration order. *)
Lemma range_find_bucket range :
  range_order range →
  match range_find module
          (from_option range [] (index (registeredModulesByType w !! t) g))
  with
  | Some id => byType_at w t g id = Some module
  | None => ∀ id, byType_at w t g id ≠ Some module
  end.
Proof.
  intros Hr. unfold byType_at, GetModulesByType.
  destruct (index (registeredModulesByType w !! t) g) as [b|]; simpl.
  - destruct (range_find module (range b)) as [id|] eqn:Hf.
    + apply range_find_Some in Hf. by apply (elem_of_range range).
    + intros id Hid. rewrite range_find_None in Hf.
      apply (Hf id). by apply (elem_of_range range).
  - done.
Qed.

End outcomes.

(** Case analysis on the outcome of a call: the call is rewritten to the
    state it returns, and the facts that select the outcome are left as the
    premises of the goal. *)
Ltac RegisterModule_outcomes impl module w :=
  let m := fresh "m" in
  let err := fresh "err" in
  let Hget := fresh "Hget" in
  let Hhook := fresh "Hhook" in
  destruct (GetModuleById (GenericId (impl module)) (SpecificId (impl module)) w)
    as [m|] eqn:Hget;
  [ rewrite (RegisterModule_collision impl module w m Hget); clear Hget
  | destruct (Register (impl module)) as [err|] eqn:Hhook;
    [ rewrite (RegisterModule_hook_failure impl module w err Hget Hhook);
      clear Hget Hhook
    | rewrite (RegisterModule_inserted impl module w Hget Hhook);
      clear Hhook; revert Hget ] ].

Ltac UnregisterModule_outcomes impl range module w Hr :=
  let id := fresh "id" in
  let Hf := fresh "Hf" in
  let Hb := fresh "Hb" in
  pose proof (range_find_bucket impl module w range Hr) as Hb;
  destruct (range_find module
              (from_option range []
                 (index (registeredModulesByType w !! Type_ (impl module))
                    (GenericId (impl module))))) as [id|] eqn:Hf;
  [ rewrite (UnregisterModule_removed impl module w range id Hf);
    revert Hf Hb; revert id
  | rewrite (UnregisterModule_not_found impl module w range Hf);
    clear Hf; revert Hb ].

(** ** Preservation of the invariants *)

Lemma no_empty_bucket_empty {X} : no_empty_bucket (∅ : gmap string (gmap string X)).
Proof. intros k b Hk. by rewrite lookup_empty in Hk. Qed.

Lemma upd_insert_non_empty {X} g s (x : X) (m : gmap string (gmap string X)) :
  upd g (insert s x) m ≠ ∅.
Proof.
  intros He. apply (f_equal (.!! g)) in He.
  by rewrite lookup_upd, decide_True, lookup_empty in He.
Qed.

Lemma consistent_init stable impl : consistent stable impl init.
Proof.
  split; [|split; [|split; [|split]]].
  - intros t g s m _ Hm. unfold byType_at, GetModulesByType in Hm.
    simpl in Hm. by rewrite lookup_empty in Hm.
  - intros g s m _ Hm. unfold byId_at, GetModulesByGenericId in Hm.
    simpl in Hm. by rewrite lookup_empty in Hm.
  - apply no_empty_bucket_empty.
  - intros t fm Hfm. simpl in Hfm. by rewrite lookup_empty in Hfm.
  - apply no_empty_bucket_empty.
Qed.

Lemma same_identity_refl stable impl : same_identity stable impl impl.
Proof. by intros m _. Qed.

Lemma same_identity_sym stable impl impl' :
  same_identity stable impl impl' → same_identity stable impl' impl.
Proof. intros Hid m Hm. by destruct (Hid m Hm) as (-> & -> & ->). Qed.

Lemma consistent_same_identity stable impl impl' w :
  same_identity stable impl impl' →
  consistent stable impl w → consistent stable impl' w.
Proof.
  intros Hid (Hk & Hb & He). split; [|split; [|done]].
  - intros t g s m Hm. destruct (Hid m Hm) as (-> & -> & ->). by apply Hk.
  - intros g s m Hm. destruct (Hid m Hm) as (_ & _ & ->). by apply Hb.
Qed.

Section preservation.
Variable stable : Module → Prop.
Variable impl : Module → Methods.
Variable module : Module.
Variable w : World.
Hypothesis Hw : consistent stable impl w.

Let t := Type_ (impl module).
Let g := GenericId (impl module).
Let s := SpecificId (impl module).

Lemma consistent_inserted calls :
  byId_at w g s = None →
  consistent stable impl
    (mkWorld (upd t (upd g (insert s module)) (registeredModulesByType w))
             (upd g (insert s module) (registeredModulesById w)) calls).
Proof.
  intros Hfree. destruct Hw as (Hk & Hb & He1 & He2 & He3).
  set (w' := mkWorld _ _ _).
  assert (∀ t' g' s', byType_at w' t' g' s' =
            if decide (t = t' ∧ g = g' ∧ s = s') then Some module
            else byType_at w t' g' s') as Ht
    by (intros; apply index3_upd_insert).
  assert (∀ g' s', byId_at w' g' s' =
            if decide (g = g' ∧ s = s') then Some module
            else byId_at w g' s') as Hi
    by (intros; apply index_upd_insert).
  split; [|split; [|split; [|split]]].
  - intros t' g' s' m Hm. rewrite Ht. case_decide as Heq; [|by apply Hk].
    destruct Heq as (<- & <- & <-). by intros [= <-].
  - intros g' s' m Hm. rewrite Hi, Ht. case_decide as Heq.
    + destruct Heq as [<- <-]. intros [= <-]. by rewrite decide_True.
    + intros Hid. rewrite decide_False; [by apply Hb|].
      intros (_ & ? & ?). by apply Heq.
  - simpl. intros t' fm. rewrite lookup_upd.
    case_decide; [|by apply He1]. intros [= <-]. apply upd_insert_non_empty.
  - simpl. intros t' fm. rewrite lookup_upd.
    case_decide; [|by apply He2]. intros [= <-].
    apply no_empty_bucket_upd_insert.
    destruct (registeredModulesByType w !! t) eqn:Hfm; simpl.
    + by apply (He2 t).
    + apply no_empty_bucket_empty.
  - simpl. by apply no_empty_bucket_upd_insert.
Qed.

(** The entry removed from the by-type index is the one the loop found,
    under the key [id]; the entry removed from the by-id index is the one
    under the specific id of the module. *)
Lemma consistent_removed calls id :
  byType_at w t g id = Some module →
  consistent stable impl
    (mkWorld (prune t (prune g (delete id)) (registeredModulesByType w))
             (prune g (delete s) (registeredModulesById w)) calls).
Proof.
  intros Hreg. destruct Hw as (Hk & Hb & He1 & He2 & He3).
  set (w' := mkWorld _ _ _).
  assert (∀ t' g' s', byType_at w' t' g' s' =
            if decide (t = t' ∧ g = g' ∧ id = s') then None
            else byType_at w t' g' s') as Ht
    by (intros; apply index3_prune_delete).
  assert (∀ g' s', byId_at w' g' s' =
            if decide (g = g' ∧ s = s') then None
            else byId_at w g' s') as Hi
    by (intros; apply index_prune_delete).
  split; [|split; [|split; [|split]]].
  - intros t' g' s' m Hm. rewrite Ht. case_decide; [done|by apply Hk].
  - intros g' s' m Hm. rewrite Hi, Ht. case_decide as Heq; [done|].
    intros Hid. pose proof (Hb _ _ _ Hm Hid) as Hty.
    rewrite decide_False; [done|]. intros (Ht' & <- & <-).
    rewrite <-Ht', Hreg in Hty. injection Hty as <-.
    destruct (Hk _ _ _ _ Hm Hreg) as (_ & _ & Hs). by apply Heq.
  - simpl. by apply no_empty_bucket_prune.
  - simpl. intros t' fm. rewrite lookup_prune.
    case_decide; [|by apply He2].
    destruct (registeredModulesByType w !! t) as [fm0|] eqn:Hfm; simpl;
      [|done].
    case_decide; [done|]. intros [= <-].
    apply no_empty_bucket_prune. by apply (He2 t).
  - simpl. by apply no_empty_bucket_prune.
Qed.

(** The loop of [UnregisterModule] can only find a module of [stable] under
    its specific id. *)
Lemma range_find_specific range id :
  stable module →
  range_order range →
  range_find module
    (from_option range [] (index (registeredModulesByType w !! t) g)) = Some id →
  id = s.
Proof.
  intros Hm Hr Hf. pose proof (range_find_bucket impl module w range Hr) as Hb.
  fold t g in Hb. rewrite Hf in Hb.
  destruct Hw as (Hk & _). by destruct (Hk _ _ _ _ Hm Hb) as (_ & _ & Hs).
Qed.

Lemma consistent_RegisterModule :
  consistent stable impl (RegisterModule impl module w).2.
Proof.
  RegisterModule_outcomes impl module w; simpl.
  - done.
  - by destruct w.
  - apply consistent_inserted.
Qed.

Lemma consistent_UnregisterModule range :
  range_order range →
  consistent stable impl (UnregisterModule impl range module w).2.
Proof.
  intros Hr. UnregisterModule_outcomes impl range module w Hr; simpl.
  - intros id _. apply consistent_removed.
  - done.
Qed.

End preservation.

Lemma reachable_consistent stable impl w :
  reachable stable impl w → consistent stable impl w.
Proof.
  induction 1 as [|impl' module w Hid _ IH|impl' range module w Hid Hr _ IH].
  - apply consistent_init.
  - apply (consistent_same_identity _ impl'); [by apply same_identity_sym|].
    apply consistent_RegisterModule.
    by apply (consistent_same_identity _ impl).
  - apply (consistent_same_identity _ impl'); [by apply same_identity_sym|].
    apply consistent_UnregisterModule; [|done].
    by apply (consistent_same_identity _ impl).
Qed.

(** *** When no module changes identity, the by-type index is within the
    by-id index as well *)

Section agreement.
Variable impl : Module → Methods.
Variable module : Module.
Variable w : World.
Hypothesis Hw : consistent everyone impl w.
Hypothesis Ha : byType_in_byId w.

Let t := Type_ (impl module).
Let g := GenericId (impl module).
Let s := SpecificId (impl module).

Lemma byType_in_byId_inserted calls :
  byId_at w g s = None →
  byType_in_byId
    (mkWorld (upd t (upd g (insert s module)) (registeredModulesByType w))
             (upd g (insert s module) (registeredModulesById w)) calls).
Proof.
  intros Hfree t' g' s' m.
  unfold byType_at, byId_at, GetModulesByType, GetModulesByGenericId; simpl.
  rewrite index3_upd_insert, index_upd_insert.
  destruct (decide (t = t' ∧ g = g' ∧ s = s')) as [(<- & <- & <-)|_].
  - by rewrite decide_True.
  - intros Hm. apply Ha in Hm. case_decide as Heq; [|done].
    destruct Heq as [<- <-]. by rewrite Hfree in Hm.
Qed.

Lemma byType_in_byId_removed calls :
  byType_at w t g s = Some module →
  byType_in_byId
    (mkWorld (prune t (prune g (delete s)) (registeredModulesByType w))
             (prune g (delete s) (registeredModulesById w)) calls).
Proof.
  intros Hreg t' g' s' m. destruct Hw as (Hk & _).
  unfold byType_at, byId_at, GetModulesByType, GetModulesByGenericId; simpl.
  rewrite index3_prune_delete, index_prune_delete.
  destruct (decide (t = t' ∧ g = g' ∧ s = s')) as [|Hne]; [done|].
  intros Hm. pose proof (Ha _ _ _ _ Hm) as Hid.
  case_decide as Heq; [|done]. destruct Heq as [<- <-].
  rewrite (Ha _ _ _ _ Hreg) in Hid. injection Hid as <-.
  destruct (Hk _ _ _ _ I Hm) as (Ht' & _). by destruct Hne.
Qed.

Lemma byType_in_byId_RegisterModule :
  byType_in_byId (RegisterModule impl module w).2.
Proof.
  RegisterModule_outcomes impl module w; simpl.
  - done.
  - by destruct w.
  - apply byType_in_byId_inserted.
Qed.

Lemma byType_in_byId_UnregisterModule range :
  range_order range →
  byType_in_byId (UnregisterModule impl range module w).2.
Proof.
  intros Hr. UnregisterModule_outcomes impl range module w Hr; simpl.
  - intros id Hf.
    rewrite (range_find_specific everyone impl module w Hw range id I Hr Hf).
    apply byType_in_byId_removed.
  - done.
Qed.

End agreement.

Lemma reachable_byType_in_byId impl w :
  reachable everyone impl w → byType_in_byId w.
Proof.
  induction 1 as [|impl' module w Hid Hreach IH
                  |impl' range module w Hid Hr Hreach IH].
  - intros t g s m Hm. unfold byType_at, GetModulesByType in Hm.
    simpl in Hm. by rewrite lookup_empty in Hm.
  - apply (byType_in_byId_RegisterModule impl'); [|done].
    apply (consistent_same_identity _ impl); [done|].
    by apply reachable_consistent.
  - apply (byType_in_byId_UnregisterModule impl'); [|done..].
    apply (consistent_same_identity _ impl); [done|].
    by apply reachable_consistent.
Qed.

(** ** Facts used by several theorems *)

Lemma count_non_empty (fm : FullModuleMap) :
  no_empty_bucket fm → fm ≠ ∅ → count fm ≠ 0.
Proof.
  intros He Hne. apply map_choose in Hne as (k & b & Hk).
  pose proof (count_delete k fm) as Hc. rewrite Hk in Hc; simpl in Hc.
  assert (size b ≠ 0); [|lia].
  apply map_size_non_empty_iff. by apply (He k).
Qed.

Lemma range_order_map_to_list : range_order map_to_list.
Proof. by intros m. Qed.

(** [UnregisterModule] makes no hook invocation, on any path. *)
Lemma UnregisterModule_hookCalls impl range module w :
  hookCalls (UnregisterModule impl range module w).2 = hookCalls w.
Proof.
  unfold UnregisterModule. by destruct (range_find module _).
Qed.

Lemma byId_at_GetModuleById w g s : byId_at w g s = GetModuleById g s w.
Proof. reflexivity. Qed.

(** A [RegisterModule] that returns no error has inserted the module. *)
Lemma RegisterModule_nil_inv impl module w :
  (RegisterModule impl module w).1 = None →
  GetModuleById (GenericId (impl module)) (SpecificId (impl module)) w = None ∧
  Register (impl module) = None.
Proof. RegisterModule_outcomes impl module w; by simpl. Qed.

(** What the queries answer after a [RegisterModule] that inserted. *)
Lemma RegisterModule_inserted_queries impl module w :
  GetModuleById (GenericId (impl module)) (SpecificId (impl module)) w = None →
  Register (impl module) = None →
  (RegisterModule impl module w).1 = None ∧
  GetModuleById (GenericId (impl module)) (SpecificId (impl module))
    (RegisterModule impl module w).2 = Some module ∧
  index (index (GetModulesByType (Type_ (impl module))
                  (RegisterModule impl module w).2)
           (GenericId (impl module))) (SpecificId (impl module)) = Some module ∧
  GetAllModulesCount (RegisterModule impl module w).2
    = GetAllModulesCount w + 1.
Proof.
  intros Hfree Hhook. rewrite RegisterModule_inserted by done.
  simpl. split; [done|]. split; [|split].
  - unfold GetModuleById; simpl. by rewrite index_upd_insert, decide_True.
  - unfold GetModulesByType; simpl. by rewrite index3_upd_insert, decide_True.
  - unfold GetAllModulesCount, GetAllModules; simpl.
    by apply (count_upd_insert _ _ module).
Qed.

(** * The claims *)

(** C1. A module whose (generic id, specific id) pair is not registered and
    whose [Register] hook succeeds is registered by [RegisterModule]: no
    error is returned; the module is returned by
    [GetModuleById] under its ids and is in [GetModulesByType] of its type
    under its generic and specific id; [GetAllModulesCount] has increased by
    exactly 1; and, in every state the registry reaches when the identity of
    modules does not change, [GetModuleCountByType] of its type has
    increased by exactly 1. *)
Theorem RegisterModule_registers impl module w :
  GetModuleById (GenericId (impl module)) (SpecificId (impl module)) w = None →
  Register (impl module) = None →
  (RegisterModule impl module w).1 = None ∧
  GetModuleById (GenericId (impl module)) (SpecificId (impl module))
    (RegisterModule impl module w).2 = Some module ∧
  index (index (GetModulesByType (Type_ (impl module))
                  (RegisterModule impl module w).2)
           (GenericId (impl module))) (SpecificId (impl module)) = Some module ∧
  GetAllModulesCount (RegisterModule impl module w).2
    = GetAllModulesCount w + 1 ∧
  (reachable everyone impl w →
   GetModuleCountByType (Type_ (impl module)) (RegisterModule impl module w).2
     = GetModuleCountByType (Type_ (impl module)) w + 1).
Proof.
  intros Hfree Hhook.
  destruct (RegisterModule_inserted_queries impl module w Hfree Hhook)
    as (Hok & Hid & Htype & Hall).
  split; [done|]. split; [done|]. split; [done|]. split; [done|].
  rewrite RegisterModule_inserted by done. simpl.
  intros Hreach. apply reachable_byType_in_byId in Hreach as Ha.
  unfold GetModuleCountByType, GetModulesByType; simpl.
  rewrite lookup_upd, decide_True by done.
  rewrite (countFullModuleMap_default (_ !! _)).
  apply (count_upd_insert _ _ module).
  destruct (index (default ∅ (registeredModulesByType w !! Type_ (impl module))
                     !! GenericId (impl module)) (SpecificId (impl module)))
    as [m|] eqn:Hm; [|done].
  assert (byId_at w (GenericId (impl module)) (SpecificId (impl module))
          = Some m) as Hm'; [|by rewrite byId_at_GetModuleById, Hfree in Hm'].
  apply (Ha (Type_ (impl module))).
  unfold byType_at, GetModulesByType.
  destruct (registeredModulesByType w !! Type_ (impl module)); simpl in *;
    [done|]. by rewrite lookup_empty in Hm.
Qed.

Lemma RegisterModule_registers_witness :
  GetModuleById "complete-module" "specific"
    (RegisterModule example_impl (ModuleAt 1) init).2 = None ∧
  Register (example_impl (ModuleAt 2)) = None ∧
  reachable everyone example_impl
    (RegisterModule example_impl (ModuleAt 1) init).2 ∧
  GetModuleById "complete-module" "specific" example_world
    = Some (ModuleAt 2) ∧
  GetAllModulesCount example_world = 2 ∧
  GetModuleCountByType "sample-module" example_world = 2.
Proof.
  assert (reachable everyone example_impl
            (RegisterModule example_impl (ModuleAt 1) init).2) as Hreach.
  { apply (reachable_RegisterModule _ _ example_impl).
    - apply same_identity_refl.
    - apply reachable_init. }
  destruct (RegisterModule_registers example_impl (ModuleAt 2)
              (RegisterModule example_impl (ModuleAt 1) init).2
              eq_refl eq_refl) as (_ & Hid & _ & Hall & Htype).
  split; [reflexivity|]. split; [reflexivity|]. split; [exact Hreach|].
  split; [exact Hid|]. split.
  - unfold example_world. rewrite Hall. reflexivity.
  - unfold example_world. simpl in Htype. rewrite (Htype Hreach). reflexivity.
Defined.

(** Without the condition on the state, the count by type of C1 fails.
    After a module has changed its specific id and has been unregistered,
    the pair of the first module is free in the by-id index while the
    by-type index still holds the module: registering it again succeeds and
    [GetAllModulesCount] goes from 1 to 2, but the entry of the by-type
    index is written over and [GetModuleCountByType] stays at 1. *)
Lemma RegisterModule_registers_counterexample :
  GetModuleById (GenericId (drift_after (ModuleAt 1)))
    (SpecificId (drift_after (ModuleAt 1))) drifted_world = None ∧
  Register (drift_after (ModuleAt 1)) = None ∧
  (RegisterModule drift_after (ModuleAt 1) drifted_world).1 = None ∧
  GetAllModulesCount drifted_world = 1 ∧
  GetAllModulesCount (RegisterModule drift_after (ModuleAt 1) drifted_world).2
    = 2 ∧
  GetModuleCountByType (Type_ (drift_after (ModuleAt 1))) drifted_world = 1 ∧
  GetModuleCountByType (Type_ (drift_after (ModuleAt 1)))
    (RegisterModule drift_after (ModuleAt 1) drifted_world).2
  ≠ GetModuleCountByType (Type_ (drift_after (ModuleAt 1))) drifted_world + 1.
Proof.
  split; [reflexivity|]. split; [reflexivity|]. split; [reflexivity|].
  split; [reflexivity|]. split; [reflexivity|]. split; [reflexivity|].
  vm_compute. discriminate.
Qed.

(** C2. When the pair (generic id, specific id) of a module is present in
    the by-id index, [RegisterModule] returns the collision error built from
    both ids and leaves the whole state as it was: the [Register] hook is
    not invoked, the indices and hence the total count are the same, and the
    pair still holds the module it held.  In particular, after a first
    module has been registered under a free pair, registering a second
    module with the same pair fails and the total count stays at one more
    than before the first registration. *)
Theorem RegisterModule_id_collision impl module w :
  is_Some (GetModuleById (GenericId (impl module)) (SpecificId (impl module)) w) →
  RegisterModule impl module w =
    (Some (Errorf "id colision detected : %q / %q"
             [GenericId (impl module); SpecificId (impl module)]), w) ∧
  hookCalls (RegisterModule impl module w).2 = hookCalls w ∧
  GetAllModulesCount (RegisterModule impl module w).2 = GetAllModulesCount w ∧
  GetModuleById (GenericId (impl module)) (SpecificId (impl module))
    (RegisterModule impl module w).2
  = GetModuleById (GenericId (impl module)) (SpecificId (impl module)) w ∧
  (∀ first w0,
     w = (RegisterModule impl first w0).2 →
     GenericId (impl first) = GenericId (impl module) →
     SpecificId (impl first) = SpecificId (impl module) →
     GetModuleById (GenericId (impl first)) (SpecificId (impl first)) w0 = None →
     Register (impl first) = None →
     GetAllModulesCount (RegisterModule impl module w).2
       = GetAllModulesCount w0 + 1 ∧
     GetModuleById (GenericId (impl module)) (SpecificId (impl module))
       (RegisterModule impl module w).2 = Some first).
Proof.
  intros [m Hm]. rewrite (RegisterModule_collision _ _ _ m) by done.
  simpl. split; [done|]. split; [done|]. split; [done|]. split; [done|].
  intros first w0 -> Hg Hs Hfree Hhook.
  destruct (RegisterModule_inserted_queries impl first w0 Hfree Hhook)
    as (_ & Hid & _ & Hall).
  split; [done|]. by rewrite <-Hg, <-Hs.
Qed.

Lemma RegisterModule_id_collision_witness :
  is_Some (GetModuleById "simple-plugin-module" ""
             (RegisterModule example_impl (ModuleAt 1) init).2) ∧
  RegisterModule example_impl (ModuleAt 5)
    (RegisterModule example_impl (ModuleAt 1) init).2 =
    (Some (Errorf "id colision detected : %q / %q"
             ["simple-plugin-module"; ""]),
     (RegisterModule example_impl (ModuleAt 1) init).2) ∧
  GetAllModulesCount
    (RegisterModule example_impl (ModuleAt 5)
       (RegisterModule example_impl (ModuleAt 1) init).2).2 = 1.
Proof.
  assert (is_Some (GetModuleById "simple-plugin-module" ""
             (RegisterModule example_impl (ModuleAt 1) init).2)) as Hsome.
  { exists (ModuleAt 1). reflexivity. }
  destruct (RegisterModule_id_collision example_impl (ModuleAt 5)
              (RegisterModule example_impl (ModuleAt 1) init).2 Hsome)
    as (Herr & _ & _ & _ & Hscenario).
  split; [exact Hsome|]. split; [exact Herr|].
  destruct (Hscenario (ModuleAt 1) init eq_refl eq_refl eq_refl eq_refl eq_refl)
    as [Hcount _].
  rewrite Hcount. reflexivity.
Defined.

(** C3. When the pair of a module is not registered and its [Register] hook
    returns an error, [RegisterModule] returns that very error and inserts
    nothing: both indices, and with them the result of every query and
    count, are as before the call (the hook has been invoked once). *)
Theorem RegisterModule_hook_error impl module w err :
  GetModuleById (GenericId (impl module)) (SpecificId (impl module)) w = None →
  Register (impl module) = Some err →
  (RegisterModule impl module w).1 = Some err ∧
  registeredModulesByType (RegisterModule impl module w).2
    = registeredModulesByType w ∧
  registeredModulesById (RegisterModule impl module w).2
    = registeredModulesById w ∧
  (∀ t, GetModulesByType t (RegisterModule impl module w).2
        = GetModulesByType t w) ∧
  (∀ t, GetModuleCountByType t (RegisterModule impl module w).2
        = GetModuleCountByType t w) ∧
  (∀ g, GetModulesByGenericId g (RegisterModule impl module w).2
        = GetModulesByGenericId g w) ∧
  (∀ g, GetModuleCountByGenericId g (RegisterModule impl module w).2
        = GetModuleCountByGenericId g w) ∧
  (∀ g s, GetModuleById g s (RegisterModule impl module w).2
          = GetModuleById g s w) ∧
  (∀ g, GetDefaultModuleByGenericId g (RegisterModule impl module w).2
        = GetDefaultModuleByGenericId g w) ∧
  GetAllModules (RegisterModule impl module w).2 = GetAllModules w ∧
  GetAllModulesCount (RegisterModule impl module w).2 = GetAllModulesCount w ∧
  hookCalls (RegisterModule impl module w).2
    = (hookCalls w ++ [CallRegister module])%list.
Proof.
  intros Hfree Hhook.
  rewrite (RegisterModule_hook_failure _ _ _ err) by done.
  by repeat split.
Qed.

Lemma RegisterModule_hook_error_witness :
  GetModuleById "failing-module" "" example_world = None ∧
  Register (example_impl (ModuleAt 4)) = Some (Errorf "can not register" []) ∧
  (RegisterModule example_impl (ModuleAt 4) example_world).1
    = Some (Errorf "can not register" []) ∧
  GetAllModulesCount (RegisterModule example_impl (ModuleAt 4) example_world).2
    = 2.
Proof.
  destruct (RegisterModule_hook_error example_impl (ModuleAt 4) example_world
              (Errorf "can not register" []) eq_refl eq_refl)
    as (Herr & _ & _ & _ & _ & _ & _ & _ & _ & _ & Hcount & _).
  split; [reflexivity|]. split; [reflexivity|]. split; [exact Herr|].
  rewrite Hcount. reflexivity.
Defined.

(** C4. Let a module keep its identity, whatever the other modules do.  In
    every state the registry reaches, [UnregisterModule] of the module, when
    it is registered, returns no error whatever the iteration order of its
    loop; afterwards its pair of ids is free, the module is stored nowhere
    in the by-type index and nowhere in the by-id index,
    [GetAllModulesCount] and
    [GetModuleCountByType] of its type have decreased by exactly 1, and
    neither index retains an empty container: a type, a generic id of a
    type, or a generic id of the by-id index that holds no module any more
    is absent (the [nil] map), not an empty bucket. *)
Theorem UnregisterModule_unregisters stable impl range module w :
  stable module →
  range_order range →
  reachable stable impl w →
  GetModuleById (GenericId (impl module)) (SpecificId (impl module)) w
    = Some module →
  (UnregisterModule impl range module w).1 = None ∧
  GetModuleById (GenericId (impl module)) (SpecificId (impl module))
    (UnregisterModule impl range module w).2 = None ∧
  (∀ t g s,
     index (index (GetModulesByType t (UnregisterModule impl range module w).2)
              g) s ≠ Some module) ∧
  (∀ g s,
     GetModuleById g s (UnregisterModule impl range module w).2 ≠ Some module) ∧
  GetAllModulesCount (UnregisterModule impl range module w).2 + 1
    = GetAllModulesCount w ∧
  GetModuleCountByType (Type_ (impl module))
    (UnregisterModule impl range module w).2 + 1
    = GetModuleCountByType (Type_ (impl module)) w ∧
  no_empty_containers (UnregisterModule impl range module w).2 ∧
  (∀ t, GetModuleCountByType t (UnregisterModule impl range module w).2 = 0 →
        GetModulesByType t (UnregisterModule impl range module w).2 = None) ∧
  (∀ t g,
     len (index (GetModulesByType t (UnregisterModule impl range module w).2) g)
       = 0 →
     index (GetModulesByType t (UnregisterModule impl range module w).2) g
       = None) ∧
  (∀ g, GetModuleCountByGenericId g (UnregisterModule impl range module w).2
          = 0 →
        GetModulesByGenericId g (UnregisterModule impl range module w).2
          = None).
Proof.
  intros Hst Hr Hreach Hget. apply reachable_consistent in Hreach as Hw.
  pose proof Hw as (Hk & Hb & _).
  assert (byType_at w (Type_ (impl module)) (GenericId (impl module))
            (SpecificId (impl module)) = Some module) as Hreg
    by (by apply Hb).
  destruct (range_find module (from_option range []
              (index (registeredModulesByType w !! Type_ (impl module))
                 (GenericId (impl module))))) as [id|] eqn:Hf.
  2:{ pose proof (range_find_bucket impl module w range Hr) as Hno.
      rewrite Hf in Hno. by destruct (Hno (SpecificId (impl module))). }
  assert (id = SpecificId (impl module)) as ->
    by (by apply (range_find_specific stable impl module w Hw range)).
  rewrite (UnregisterModule_removed _ _ _ _ _ Hf); simpl.
  pose proof (consistent_removed stable impl module w Hw (hookCalls w) _ Hreg)
    as (Hk' & Hb' & He1 & He2 & He3).
  set (w' := mkWorld _ _ _) in *.
  assert (∀ t g s, byType_at w' t g s ≠ Some module) as Hgone.
  { intros t g s Hm. destruct (Hk' _ _ _ _ Hst Hm) as (<- & <- & <-).
    unfold byType_at, GetModulesByType, w' in Hm; simpl in Hm.
    by rewrite index3_prune_delete, decide_True in Hm. }
  split; [done|]. split; [|split; [done|split; [|split; [|split; [|split]]]]].
  - unfold GetModuleById; simpl. by rewrite index_prune_delete, decide_True.
  - intros g s Hm. apply (Hgone (Type_ (impl module)) g s). by apply Hb'.
  - unfold GetAllModulesCount, GetAllModules; simpl.
    by apply (count_prune_delete _ _ module).
  - unfold GetModuleCountByType, GetModulesByType; simpl.
    rewrite lookup_prune, decide_True by done.
    unfold byType_at, GetModulesByType in Hreg.
    destruct (registeredModulesByType w !! Type_ (impl module)) as [fm|];
      simpl in *; [|done].
    change (map_fold _ 0 fm) with (count fm).
    rewrite <-(count_prune_delete (GenericId (impl module))
                 (SpecificId (impl module)) module fm Hreg).
    case_decide as He; simpl; [|done]. by rewrite He, count_empty.
  - done.
  - split; [|split].
    + intros t Hc. unfold GetModuleCountByType, GetModulesByType in *.
      destruct (registeredModulesByType w' !! t) as [fm|] eqn:Hfm; [|done].
      destruct (count_non_empty fm); [by apply (He2 t)|by apply (He1 t)|done].
    + intros t g Hl. unfold GetModulesByType in *.
      destruct (registeredModulesByType w' !! t) as [fm|] eqn:Hfm; [|done].
      simpl in *. destruct (fm !! g) as [b|] eqn:Hb0; [|done]. simpl in Hl.
      apply map_size_empty_iff in Hl. by destruct (He2 t fm Hfm g b Hb0).
    + intros g Hl. unfold GetModuleCountByGenericId, GetModulesByGenericId in *.
      destruct (registeredModulesById w' !! g) as [b|] eqn:Hb0; [|done].
      simpl in Hl. apply map_size_empty_iff in Hl. by destruct (He3 g b Hb0).
Qed.

Lemma example_world_reachable stable :
  reachable stable example_impl example_world.
Proof.
  apply (reachable_RegisterModule _ _ example_impl);
    [apply same_identity_refl|].
  apply (reachable_RegisterModule _ _ example_impl);
    [apply same_identity_refl|].
  apply reachable_init.
Qed.

Lemma UnregisterModule_unregisters_witness :
  GetModuleById "complete-module" "specific" example_world
    = Some (ModuleAt 2) ∧
  (UnregisterModule example_impl map_to_list (ModuleAt 2) example_world).1
    = None ∧
  GetAllModulesCount
    (UnregisterModule example_impl map_to_list (ModuleAt 2) example_world).2
    + 1 = 2 ∧
  GetModulesByGenericId "complete-module"
    (UnregisterModule example_impl map_to_list (ModuleAt 2) example_world).2
    = None.
Proof.
  destruct (UnregisterModule_unregisters (λ m, m = ModuleAt 2) example_impl
              map_to_list (ModuleAt 2) example_world eq_refl
              range_order_map_to_list (example_world_reachable _) eq_refl)
    as (Herr & _ & _ & _ & Hcount & _ & _ & _ & _ & Hnil).
  split; [reflexivity|]. split; [exact Herr|]. split; [exact Hcount|].
  apply Hnil. reflexivity.
Defined.

(** C5. In any state, and whatever the identity methods of the module
    answer now and the iteration order of the loop, when no entry of the
    by-type bucket for the current type and generic id of a module is the
    module itself, [UnregisterModule] returns the error "module not found"
    and leaves the whole state as it was. *)
Theorem UnregisterModule_module_not_found impl range module w :
  range_order range →
  (∀ id,
     index (index (GetModulesByType (Type_ (impl module)) w)
              (GenericId (impl module))) id ≠ Some module) →
  UnregisterModule impl range module w =
    (Some (Errorf "module not found" []), w).
Proof.
  intros Hr Hno. apply UnregisterModule_not_found.
  pose proof (range_find_bucket impl module w range Hr) as Hb.
  destruct (range_find module _) as [id|]; [|done].
  by destruct (Hno id).
Qed.

(** The bucket of the plugin module in the example registry holds the first
    instance only. *)
Lemma example_bucket id :
  index (index (GetModulesByType "sample-module" example_world)
           "simple-plugin-module") id ≠ Some (ModuleAt 5).
Proof.
  assert (index (GetModulesByType "sample-module" example_world)
            "simple-plugin-module" = Some {[ "" := ModuleAt 1 ]}) as ->
    by reflexivity.
  simpl. intros Hid. by apply lookup_singleton_Some in Hid as [_ Hm].
Qed.

Lemma UnregisterModule_module_not_found_witness :
  UnregisterModule example_impl map_to_list (ModuleAt 5) example_world =
    (Some (Errorf "module not found" []), example_world).
Proof.
  apply (UnregisterModule_module_not_found example_impl map_to_list
           (ModuleAt 5) example_world range_order_map_to_list).
  exact example_bucket.
Defined.

(** C6. In every state reached by a sequence of [RegisterModule] and
    [UnregisterModule] calls on modules whose identity does not change, a
    module is in the by-type index under some type, a generic id and a
    specific id if and only if it is in the by-id index under the same
    generic id and specific id. *)
Theorem indices_in_lock_step impl w :
  reachable everyone impl w →
  ∀ m g s,
    (∃ t, index (index (GetModulesByType t w) g) s = Some m) ↔
    GetModuleById g s w = Some m.
Proof.
  intros Hreach m g s. split.
  - intros [t Ht]. by apply (reachable_byType_in_byId impl w Hreach t).
  - intros Hm. apply reachable_consistent in Hreach as (_ & Hb & _).
    exists (Type_ (impl m)). by apply Hb.
Qed.

Lemma indices_in_lock_step_witness :
  (∃ t, index (index (GetModulesByType t
          (UnregisterModule example_impl map_to_list (ModuleAt 1)
             example_world).2) "complete-module") "specific"
        = Some (ModuleAt 2)) ∧
  ¬ (∃ t, index (index (GetModulesByType t
          (UnregisterModule example_impl map_to_list (ModuleAt 1)
             example_world).2) "simple-plugin-module") ""
        = Some (ModuleAt 1)).
Proof.
  assert (reachable everyone example_impl
            (UnregisterModule example_impl map_to_list (ModuleAt 1)
               example_world).2) as Hreach.
  { apply (reachable_UnregisterModule _ _ example_impl).
    - apply same_identity_refl.
    - apply range_order_map_to_list.
    - apply example_world_reachable. }
  split.
  - apply (indices_in_lock_step example_impl _ Hreach). reflexivity.
  - intros Hin.
    apply (indices_in_lock_step example_impl _ Hreach) in Hin.
    vm_compute in Hin. discriminate Hin.
Defined.

(** C7. [UnregisterModule] never invokes the [Unregister] hook: the log of
    hook invocations is the same after the call as before it, for every
    module and state; and unregistering the registered plugin module of the
    example succeeds and removes it with no invocation of its hook. *)
Theorem UnregisterModule_omits_hook :
  (∀ impl range module w,
     unregister_calls module (hookCalls (UnregisterModule impl range module w).2)
     = unregister_calls module (hookCalls w)) ∧
  (UnregisterModule example_impl map_to_list (ModuleAt 1) example_world).1
    = None ∧
  GetModuleById "simple-plugin-module" ""
    (UnregisterModule example_impl map_to_list (ModuleAt 1) example_world).2
    = None ∧
  unregister_calls (ModuleAt 1)
    (hookCalls
       (UnregisterModule example_impl map_to_list (ModuleAt 1) example_world).2)
    = 0 ∧
  register_calls (ModuleAt 1)
    (hookCalls
       (UnregisterModule example_impl map_to_list (ModuleAt 1) example_world).2)
    = 1.
Proof.
  split; [|by repeat split].
  intros impl range module w. by rewrite UnregisterModule_hookCalls.
Qed.

(** C8. [GetDefaultModuleByGenericId] of a generic id is [GetModuleById] of
    that generic id and the empty specific id; and a successful
    [RegisterModule] of a module with that generic id and a non-empty
    specific id does not change it. *)
Theorem GetDefaultModuleByGenericId_default g w :
  GetDefaultModuleByGenericId g w = GetModuleById g "" w ∧
  ∀ impl module,
    GenericId (impl module) = g →
    SpecificId (impl module) ≠ "" →
    (RegisterModule impl module w).1 = None →
    GetDefaultModuleByGenericId g (RegisterModule impl module w).2
    = GetDefaultModuleByGenericId g w.
Proof.
  split; [done|]. intros impl module Hg Hs Hok.
  apply RegisterModule_nil_inv in Hok as [Hfree Hhook].
  rewrite RegisterModule_inserted by done.
  unfold GetDefaultModuleByGenericId; simpl.
  rewrite index_upd_insert, decide_False; [done|]. by intros [_ ?].
Qed.

Lemma GetDefaultModuleByGenericId_default_witness :
  GetDefaultModuleByGenericId "complete-module"
    (RegisterModule example_impl (ModuleAt 2)
       (RegisterModule example_impl (ModuleAt 1) init).2).2
  = GetDefaultModuleByGenericId "complete-module"
      (RegisterModule example_impl (ModuleAt 1) init).2.
Proof.
  destruct (GetDefaultModuleByGenericId_default "complete-module"
              (RegisterModule example_impl (ModuleAt 1) init).2) as [_ Hkeep].
  apply (Hkeep example_impl (ModuleAt 2)).
  - reflexivity.
  - discriminate.
  - reflexivity.
Defined.

(** C9. [Configure] of the base implementation returns no error for every
    [GenericModule] and every parameter-map pointer, nil included; the
    pointer it was given is the one [Parameters] returns afterwards; and
    [Ready] answers as it did before the call, so it answers false after
    [Configure] on a module just built by [NewGenericModule].  No field but
    the parameter pointer is written: configuring back with the former
    pointer gives back the former struct. *)
Theorem Configure_keeps_ready gm params :
  (GenericModule.Configure params gm).1 = None ∧
  GenericModule.Parameters (GenericModule.Configure params gm).2 = params ∧
  GenericModule.Ready (GenericModule.Configure params gm).2
    = GenericModule.Ready gm ∧
  (GenericModule.Configure (GenericModule.Parameters gm)
     (GenericModule.Configure params gm).2).2 = gm ∧
  ∀ name version genericId specificId moduleType h,
    GenericModule.Ready
      (GenericModule.Configure params
         (NewGenericModule name version genericId specificId moduleType h).1).2
    = false.
Proof. by destruct gm. Qed.

(** C10. [RegisterModule] does not validate identity: a module whose generic
    id, specific id and type are all the empty string and whose [Register]
    hook succeeds is registered when the pair of empty strings is free, and
    is then the default module of the empty generic id. *)
Theorem RegisterModule_empty_identity impl module w :
  GenericId (impl module) = "" →
  SpecificId (impl module) = "" →
  Type_ (impl module) = "" →
  Register (impl module) = None →
  GetModuleById "" "" w = None →
  (RegisterModule impl module w).1 = None ∧
  GetDefaultModuleByGenericId "" (RegisterModule impl module w).2 = Some module.
Proof.
  intros Hg Hs Ht Hhook Hfree.
  destruct (RegisterModule_inserted_queries impl module w) as (Hok & Hid & _);
    [by rewrite Hg, Hs|done|].
  split; [done|]. by rewrite Hg, Hs in Hid.
Qed.

Lemma RegisterModule_empty_identity_witness :
  (RegisterModule example_impl (ModuleAt 3) example_world).1 = None ∧
  GetDefaultModuleByGenericId ""
    (RegisterModule example_impl (ModuleAt 3) example_world).2
  = Some (ModuleAt 3).
Proof.
  apply (RegisterModule_empty_identity example_impl (ModuleAt 3) example_world);
    reflexivity.
Defined.

(** * Further properties of the registry *)

(** ** The update patterns undo each other and commute *)

Section bucket_algebra.
Context {X : Type}.
Implicit Types (m : gmap string (gmap string X)) (b : gmap string X).
Implicit Types (f : gmap string X → gmap string X) (k g s : string).

Lemma prune_upd k f f' m :
  no_empty_bucket m →
  f' (f (default ∅ (m !! k))) = default ∅ (m !! k) →
  prune k f' (upd k f m) = m.
Proof.
  intros Hm Hff. rewrite upd_insert.
  rewrite (prune_Some _ _ _ (f (default ∅ (m !! k))))
    by apply lookup_insert_eq.
  rewrite Hff. destruct (m !! k) as [b|] eqn:Hk; simpl.
  - rewrite decide_False by (by apply (Hm k)).
    rewrite insert_insert_eq. by apply insert_id.
  - rewrite decide_True by done. by apply delete_insert_id.
Qed.

Lemma upd_prune k f f' m b :
  m !! k = Some b → f (f' b) = b → upd k f (prune k f' m) = m.
Proof.
  intros Hk Hff. rewrite (prune_Some _ _ _ b), upd_insert by done.
  destruct (decide (f' b = ∅)) as [He|He].
  - rewrite lookup_delete_eq; simpl. rewrite <-He, Hff.
    by apply insert_delete_id.
  - rewrite lookup_insert_eq; simpl. rewrite Hff, insert_insert_eq.
    by apply insert_id.
Qed.

Lemma upd_upd_comm k1 k2 f1 f2 m :
  (k1 = k2 → ∀ b, f1 (f2 b) = f2 (f1 b)) →
  upd k1 f1 (upd k2 f2 m) = upd k2 f2 (upd k1 f1 m).
Proof.
  intros Hcomm. rewrite !upd_insert.
  destruct (decide (k1 = k2)) as [<-|Hk].
  - rewrite !lookup_insert_eq; simpl. rewrite !insert_insert_eq.
    by rewrite Hcomm.
  - rewrite !lookup_insert_ne by done. by apply insert_insert_ne.
Qed.

Lemma delete_insert_bucket s (x : X) m g :
  index (m !! g) s = None →
  delete s (<[s := x]> (default ∅ (m !! g))) = default ∅ (m !! g).
Proof.
  intros Hs. apply delete_insert_id.
  destruct (m !! g); simpl in *; [done|]. apply lookup_empty.
Qed.

Lemma prune_upd_insert g s (x : X) m :
  no_empty_bucket m → index (m !! g) s = None →
  prune g (delete s) (upd g (insert s x) m) = m.
Proof.
  intros Hm Hs. apply prune_upd; [done|]. by apply delete_insert_bucket.
Qed.

Lemma upd_prune_insert g s (x : X) m :
  index (m !! g) s = Some x →
  upd g (insert s x) (prune g (delete s) m) = m.
Proof.
  intros Hs. destruct (m !! g) as [b|] eqn:Hg; simpl in Hs; [|done].
  apply (upd_prune _ _ _ _ b); [done|]. by apply insert_delete_id.
Qed.

Lemma upd_insert_comm g1 s1 (x1 : X) g2 s2 (x2 : X) m :
  g1 ≠ g2 ∨ s1 ≠ s2 →
  upd g1 (insert s1 x1) (upd g2 (insert s2 x2) m)
  = upd g2 (insert s2 x2) (upd g1 (insert s1 x1) m).
Proof.
  intros Hne. apply upd_upd_comm. intros <- b.
  apply insert_insert_ne. by destruct Hne.
Qed.

End bucket_algebra.

(** What [UnregisterModule] returns for a registered module that keeps its
    identity. *)
Lemma UnregisterModule_registered stable impl range module w :
  stable module →
  range_order range →
  consistent stable impl w →
  GetModuleById (GenericId (impl module)) (SpecificId (impl module)) w
    = Some module →
  UnregisterModule impl range module w =
  (None,
   mkWorld (prune (Type_ (impl module))
              (prune (GenericId (impl module))
                 (delete (SpecificId (impl module))))
              (registeredModulesByType w))
           (prune (GenericId (impl module)) (delete (SpecificId (impl module)))
              (registeredModulesById w))
           (hookCalls w)) ∧
  byType_at w (Type_ (impl module)) (GenericId (impl module))
    (SpecificId (impl module)) = Some module.
Proof.
  intros Hst Hr Hw Hget. pose proof Hw as (_ & Hb & _).
  assert (byType_at w (Type_ (impl module)) (GenericId (impl module))
            (SpecificId (impl module)) = Some module) as Hreg
    by (by apply Hb).
  split; [|done]. UnregisterModule_outcomes impl range module w Hr.
  - intros id Hf _.
    by rewrite (range_find_specific stable impl module w Hw range id Hst Hr Hf).
  - intros Hno. by destruct (Hno (SpecificId (impl module))).
Qed.

(** X1. Registering a module and unregistering it at once gives back both
    indices as they were, in every state the registry reaches when no module
    changes identity. *)
Theorem UnregisterModule_undoes_RegisterModule impl range module w :
  range_order range →
  reachable everyone impl w →
  GetModuleById (GenericId (impl module)) (SpecificId (impl module)) w = None →
  Register (impl module) = None →
  (UnregisterModule impl range module (RegisterModule impl module w).2).1
    = None ∧
  registeredModulesByType
    (UnregisterModule impl range module (RegisterModule impl module w).2).2
    = registeredModulesByType w ∧
  registeredModulesById
    (UnregisterModule impl range module (RegisterModule impl module w).2).2
    = registeredModulesById w.
Proof.
  intros Hr Hreach Hfree Hhook.
  pose proof (reachable_byType_in_byId impl w Hreach) as Ha.
  pose proof (reachable_consistent _ impl w Hreach) as (_ & _ & He1 & He2 & He3).
  assert (reachable everyone impl (RegisterModule impl module w).2) as Hreach'
    by (apply reachable_RegisterModule; [apply same_identity_refl|done]).
  apply reachable_consistent in Hreach' as Hw'.
  destruct (RegisterModule_inserted_queries impl module w Hfree Hhook)
    as (_ & Hid & _).
  destruct (UnregisterModule_registered everyone impl range module _ I Hr Hw' Hid)
    as [-> _].
  rewrite RegisterModule_inserted by done. simpl.
  assert (byType_at w (Type_ (impl module)) (GenericId (impl module))
            (SpecificId (impl module)) = None) as Hfree'.
  { destruct (byType_at w _ _ _) as [m|] eqn:Hm; [|done].
    apply Ha in Hm. by rewrite byId_at_GetModuleById, Hfree in Hm. }
  split; [done|]. split.
  - apply prune_upd; [done|]. apply prune_upd_insert.
    + unfold byType_at, GetModulesByType in Hfree'.
      destruct (registeredModulesByType w !! Type_ (impl module)) eqn:Hfm;
        simpl; [by apply (He2 (Type_ (impl module)))|].
      apply no_empty_bucket_empty.
    + unfold byType_at, GetModulesByType in Hfree'.
      destruct (registeredModulesByType w !! Type_ (impl module));
        simpl in *; [done|]. by rewrite lookup_empty.
  - by apply prune_upd_insert.
Qed.

Lemma UnregisterModule_undoes_RegisterModule_witness :
  registeredModulesById
    (UnregisterModule example_impl map_to_list (ModuleAt 3)
       (RegisterModule example_impl (ModuleAt 3) example_world).2).2
  = registeredModulesById example_world.
Proof.
  apply (UnregisterModule_undoes_RegisterModule example_impl map_to_list
           (ModuleAt 3) example_world range_order_map_to_list
           (example_world_reachable _) eq_refl eq_refl).
Defined.

(** X2. Unregistering a registered module that has kept its identity and
    registering it again, its hook succeeding, gives back both indices as
    they were: the second registration does not collide. *)
Theorem RegisterModule_undoes_UnregisterModule stable impl range module w :
  stable module →
  range_order range →
  reachable stable impl w →
  GetModuleById (GenericId (impl module)) (SpecificId (impl module)) w
    = Some module →
  Register (impl module) = None →
  (RegisterModule impl module (UnregisterModule impl range module w).2).1
    = None ∧
  registeredModulesByType
    (RegisterModule impl module (UnregisterModule impl range module w).2).2
    = registeredModulesByType w ∧
  registeredModulesById
    (RegisterModule impl module (UnregisterModule impl range module w).2).2
    = registeredModulesById w.
Proof.
  intros Hst Hr Hreach Hget Hhook. apply reachable_consistent in Hreach as Hw.
  destruct (UnregisterModule_registered stable impl range module w Hst Hr Hw Hget)
    as [-> Hreg].
  simpl. rewrite RegisterModule_inserted; simpl; [| |done].
  - split; [done|]. split.
    + unfold byType_at, GetModulesByType in Hreg.
      destruct (registeredModulesByType w !! Type_ (impl module)) as [fm|]
        eqn:Hfm; simpl in Hreg; [|done].
      apply (upd_prune _ _ _ _ fm); [done|]. by apply upd_prune_insert.
    + by apply upd_prune_insert.
  - unfold GetModuleById; simpl. by rewrite index_prune_delete, decide_True.
Qed.

Lemma RegisterModule_undoes_UnregisterModule_witness :
  registeredModulesByType
    (RegisterModule example_impl (ModuleAt 1)
       (UnregisterModule example_impl map_to_list (ModuleAt 1)
          example_world).2).2
  = registeredModulesByType example_world.
Proof.
  apply (RegisterModule_undoes_UnregisterModule (λ m, m = ModuleAt 1)
           example_impl map_to_list (ModuleAt 1) example_world eq_refl
           range_order_map_to_list (example_world_reachable _)
           eq_refl eq_refl).
Defined.

(** X3. Two modules with different (generic id, specific id) pairs, both
    free, and hooks that succeed can be registered in either order: both
    registrations succeed and the indices are the same in the end. *)
Theorem RegisterModule_commutes impl m1 m2 w :
  GenericId (impl m1) ≠ GenericId (impl m2) ∨
    SpecificId (impl m1) ≠ SpecificId (impl m2) →
  GetModuleById (GenericId (impl m1)) (SpecificId (impl m1)) w = None →
  GetModuleById (GenericId (impl m2)) (SpecificId (impl m2)) w = None →
  Register (impl m1) = None →
  Register (impl m2) = None →
  (RegisterModule impl m2 (RegisterModule impl m1 w).2).1 = None ∧
  (RegisterModule impl m1 (RegisterModule impl m2 w).2).1 = None ∧
  registeredModulesByType (RegisterModule impl m2 (RegisterModule impl m1 w).2).2
    = registeredModulesByType
        (RegisterModule impl m1 (RegisterModule impl m2 w).2).2 ∧
  registeredModulesById (RegisterModule impl m2 (RegisterModule impl m1 w).2).2
    = registeredModulesById
        (RegisterModule impl m1 (RegisterModule impl m2 w).2).2.
Proof.
  intros Hne Hfree1 Hfree2 Hhook1 Hhook2.
  rewrite (RegisterModule_inserted impl m1 w) by done.
  rewrite (RegisterModule_inserted impl m2 w) by done.
  rewrite !RegisterModule_inserted; simpl; try done.
  - split; [done|]. split; [done|].
    assert (GenericId (impl m2) ≠ GenericId (impl m1) ∨
            SpecificId (impl m2) ≠ SpecificId (impl m1)) as Hne'
      by (destruct Hne; [left|right]; congruence).
    split.
    + apply upd_upd_comm. intros _ fm. by apply upd_insert_comm.
    + by apply upd_insert_comm.
  - unfold GetModuleById; simpl. rewrite index_upd_insert, decide_False; [done|].
    intros [Hg Hs]. destruct Hne; congruence.
  - unfold GetModuleById; simpl. rewrite index_upd_insert, decide_False; [done|].
    intros [Hg Hs]. destruct Hne; congruence.
Qed.

Lemma RegisterModule_commutes_witness :
  registeredModulesById
    (RegisterModule example_impl (ModuleAt 2)
       (RegisterModule example_impl (ModuleAt 1) init).2).2
  = registeredModulesById
      (RegisterModule example_impl (ModuleAt 1)
         (RegisterModule example_impl (ModuleAt 2) init).2).2.
Proof.
  apply (RegisterModule_commutes example_impl (ModuleAt 1) (ModuleAt 2) init);
    [left; discriminate|reflexivity..].
Defined.

(** ** What a call leaves alone *)

(** X4. [RegisterModule] never replaces or removes an entry of the by-id
    index, in any state and on any outcome: what [GetModuleById] returned
    for a pair before the call it returns after it, and the only thing it
    can return more is the module itself under its own pair.  Where no
    module changes identity the same holds for the by-type index. *)
Theorem RegisterModule_keeps_entries impl module w :
  (∀ g s m,
     GetModuleById g s w = Some m →
     GetModuleById g s (RegisterModule impl module w).2 = Some m) ∧
  (∀ g s m,
     GetModuleById g s (RegisterModule impl module w).2 = Some m →
     GetModuleById g s w = Some m ∨
     (m = module ∧ g = GenericId (impl module) ∧ s = SpecificId (impl module))) ∧
  (reachable everyone impl w →
   ∀ t g s m,
     index (index (GetModulesByType t w) g) s = Some m →
     index (index (GetModulesByType t (RegisterModule impl module w).2) g) s
       = Some m).
Proof.
  RegisterModule_outcomes impl module w; simpl;
    [by split; [|split; [left|]]|by destruct w; split; [|split; [left|]]|].
  intros Hfree. split; [|split].
  - intros g s m Hm. unfold GetModuleById in *; simpl.
    rewrite index_upd_insert. case_decide as Heq; [|done].
    destruct Heq as [<- <-]. by rewrite Hfree in Hm.
  - intros g s m. unfold GetModuleById; simpl. rewrite index_upd_insert.
    case_decide as Heq; [|by left].
    destruct Heq as [<- <-]. intros [= <-]. by right.
  - intros Hreach t g s m Hm.
    pose proof (reachable_byType_in_byId impl w Hreach _ _ _ _ Hm) as Hid.
    unfold GetModulesByType in *; simpl. rewrite index3_upd_insert.
    case_decide as Heq; [|done]. destruct Heq as (_ & <- & <-).
    by rewrite byId_at_GetModuleById, Hfree in Hid.
Qed.

Lemma RegisterModule_keeps_entries_witness :
  GetModuleById "simple-plugin-module" ""
    (RegisterModule example_impl (ModuleAt 5) example_world).2
  = Some (ModuleAt 1) ∧
  index (index (GetModulesByType "sample-module"
                  (RegisterModule example_impl (ModuleAt 3) example_world).2)
           "complete-module") "specific" = Some (ModuleAt 2).
Proof.
  split.
  - destruct (RegisterModule_keeps_entries example_impl (ModuleAt 5)
                example_world) as (Hkeep & _ & _).
    apply Hkeep. reflexivity.
  - destruct (RegisterModule_keeps_entries example_impl (ModuleAt 3)
                example_world) as (_ & _ & Hkeep).
    apply Hkeep; [apply example_world_reachable|reflexivity].
Defined.

(** X5. [UnregisterModule], in any state, for any identity of the module
    and any iteration order, adds nothing to either index; it removes from
    the by-type index no module other than the one it is given; and in the
    by-id index it touches only the pair of the current generic and
    specific id of the module. *)
Theorem UnregisterModule_keeps_entries impl range module w :
  range_order range →
  (∀ t g s m,
     index (index (GetModulesByType t (UnregisterModule impl range module w).2)
              g) s = Some m →
     index (index (GetModulesByType t w) g) s = Some m) ∧
  (∀ t g s m,
     index (index (GetModulesByType t w) g) s = Some m →
     m ≠ module →
     index (index (GetModulesByType t (UnregisterModule impl range module w).2)
              g) s = Some m) ∧
  (∀ g s m,
     GetModuleById g s (UnregisterModule impl range module w).2 = Some m →
     GetModuleById g s w = Some m) ∧
  (∀ g s,
     g ≠ GenericId (impl module) ∨ s ≠ SpecificId (impl module) →
     GetModuleById g s (UnregisterModule impl range module w).2
     = GetModuleById g s w).
Proof.
  intros Hr. UnregisterModule_outcomes impl range module w Hr; simpl; [|done].
  intros id _ Hfound. unfold GetModulesByType, GetModuleById; simpl.
  split; [|split; [|split]].
  - intros t g s m. rewrite index3_prune_delete. by case_decide.
  - intros t g s m Hm Hne. rewrite index3_prune_delete.
    case_decide as Heq; [|done]. destruct Heq as (<- & <- & <-).
    unfold byType_at, GetModulesByType in Hfound. congruence.
  - intros g s m. rewrite index_prune_delete. by case_decide.
  - intros g s Hne. rewrite index_prune_delete.
    case_decide as Heq; [|done]. destruct Heq as [<- <-]. by destruct Hne.
Qed.

Lemma UnregisterModule_keeps_entries_witness :
  GetModuleById "complete-module" "specific"
    (UnregisterModule example_impl map_to_list (ModuleAt 1) example_world).2
  = Some (ModuleAt 2).
Proof.
  destruct (UnregisterModule_keeps_entries example_impl map_to_list (ModuleAt 1)
              example_world range_order_map_to_list) as (_ & _ & _ & Hframe).
  rewrite Hframe; [reflexivity|left; discriminate].
Defined.

(** X6. [UnregisterModule] returns no error exactly when the by-type bucket
    of the current type and generic id of the module holds the module under
    some key, in any state and for any iteration order; and when it returns
    no error, the by-id pair of the current generic and specific id of the
    module is free afterwards, whichever module it held. *)
Theorem UnregisterModule_succeeds_iff impl range module w :
  range_order range →
  ((UnregisterModule impl range module w).1 = None ↔
   ∃ id, index (index (GetModulesByType (Type_ (impl module)) w)
                  (GenericId (impl module))) id = Some module) ∧
  ((UnregisterModule impl range module w).1 = None →
   GetModuleById (GenericId (impl module)) (SpecificId (impl module))
     (UnregisterModule impl range module w).2 = None).
Proof.
  intros Hr. UnregisterModule_outcomes impl range module w Hr; simpl.
  - intros id _ Hfound. split; [split; [by exists id|done]|].
    intros _. unfold GetModuleById; simpl.
    by rewrite index_prune_delete, decide_True.
  - intros Hno. split; [|done]. split; [done|].
    intros [id Hid]. by destruct (Hno id).
Qed.

Lemma UnregisterModule_succeeds_iff_witness :
  (UnregisterModule example_impl map_to_list (ModuleAt 2) example_world).1
    = None.
Proof.
  apply (UnregisterModule_succeeds_iff example_impl map_to_list (ModuleAt 2)
           example_world range_order_map_to_list).
  exists "specific". reflexivity.
Defined.

(** ** Counts and lookups *)

Lemma total_empty {V} (sz : V → nat) : total sz ∅ = 0.
Proof. apply map_fold_empty. Qed.

Lemma total_insert_fresh {V} (sz : V → nat) k (b : V) (m : gmap string V) :
  m !! k = None → total sz (<[k := b]> m) = total sz m + sz b.
Proof.
  intros Hk. unfold total. rewrite map_fold_insert_L; [done| |done].
  intros; lia.
Qed.

Lemma total_delete {V} (sz : V → nat) k (m : gmap string V) :
  total sz (delete k m) + from_option sz 0 (m !! k) = total sz m.
Proof.
  destruct (m !! k) as [b|] eqn:Hk; simpl.
  - rewrite <-(insert_delete_id m k b) at 2 by done.
    by rewrite total_insert_fresh by apply lookup_delete_eq.
  - rewrite delete_id by done. lia.
Qed.

Lemma total_insert {V} (sz : V → nat) k (b : V) (m : gmap string V) :
  total sz (<[k := b]> m) + from_option sz 0 (m !! k) = total sz m + sz b.
Proof.
  rewrite <-insert_delete_eq.
  rewrite total_insert_fresh by apply lookup_delete_eq.
  pose proof (total_delete sz k m). lia.
Qed.

Lemma total_zero {V} (sz : V → nat) (m : gmap string V) :
  total sz m = 0 ↔ ∀ k b, m !! k = Some b → sz b = 0.
Proof.
  induction m as [|k b m Hk IH] using map_ind.
  - rewrite total_empty. split; [|done]. intros _ k b Hk.
    by rewrite lookup_empty in Hk.
  - rewrite total_insert_fresh by done. split.
    + intros Hz k' b'. rewrite lookup_insert.
      case_decide; [intros [= <-]; lia|]. apply IH. lia.
    + intros Hall. assert (sz b = 0) as ->
        by (apply (Hall k); apply lookup_insert_eq).
      assert (total sz m = 0) as ->; [|done].
      apply IH. intros k' b' Hk'. apply (Hall k').
      rewrite lookup_insert_ne; [done|]. intros <-. by rewrite Hk in Hk'.
Qed.

Lemma count_zero (fm : FullModuleMap) :
  count fm = 0 ↔ ∀ g s, index (fm !! g) s = None.
Proof.
  change (count fm) with (total size fm). rewrite total_zero. split.
  - intros Hall g s. destruct (fm !! g) as [b|] eqn:Hg; simpl; [|done].
    apply Hall, map_size_empty_iff in Hg. by rewrite Hg, lookup_empty.
  - intros Hall g b Hg. apply map_size_empty_iff, map_empty. intros s.
    specialize (Hall g s). by rewrite Hg in Hall.
Qed.

(** X7. In any state, a count is zero exactly when the matching lookup
    finds nothing: [GetAllModulesCount] and [GetModuleById],
    [GetModuleCountByGenericId] and [GetModuleById] under that generic id,
    [GetModuleCountByType] and [GetModulesByType] of that type; and the
    count of a generic id is at most the count of all modules. *)
Theorem counts_and_lookups w :
  (GetAllModulesCount w = 0 ↔ ∀ g s, GetModuleById g s w = None) ∧
  (∀ g, GetModuleCountByGenericId g w = 0 ↔ ∀ s, GetModuleById g s w = None) ∧
  (∀ t, GetModuleCountByType t w = 0 ↔
        ∀ g s, index (index (GetModulesByType t w) g) s = None) ∧
  (∀ g, (GetModuleCountByGenericId g w ≤ GetAllModulesCount w)%nat).
Proof.
  split; [|split; [|split]].
  - apply count_zero.
  - intros g. unfold GetModuleCountByGenericId, GetModulesByGenericId,
      GetModuleById.
    destruct (registeredModulesById w !! g) as [b|]; simpl; [|done].
    by rewrite map_size_empty_iff, map_empty.
  - intros t. unfold GetModuleCountByType, GetModulesByType.
    destruct (registeredModulesByType w !! t) as [fm|]; simpl; [|done].
    apply count_zero.
  - intros g. unfold GetModuleCountByGenericId, GetModulesByGenericId,
      GetAllModulesCount, GetAllModules.
    pose proof (count_delete g (registeredModulesById w)). fold (count (registeredModulesById w)). lia.
Qed.

Lemma total_upd {X} (sz : gmap string X → nat) k f
    (m : gmap string (gmap string X)) :
  sz ∅ = 0 →
  total sz (upd k f m) + sz (default ∅ (m !! k))
  = total sz m + sz (f (default ∅ (m !! k))).
Proof.
  intros Hz. rewrite upd_insert.
  pose proof (total_insert sz k (f (default ∅ (m !! k))) m) as Ht.
  destruct (m !! k); simpl in *; lia.
Qed.

Lemma total_prune {X} (sz : gmap string X → nat) k f
    (m : gmap string (gmap string X)) b :
  sz ∅ = 0 → m !! k = Some b →
  total sz (prune k f m) + sz b = total sz m + sz (f b).
Proof.
  intros Hz Hk. rewrite (prune_Some _ _ _ b) by done. case_decide as He.
  - pose proof (total_delete sz k m) as Ht. rewrite Hk in Ht; simpl in Ht.
    rewrite He, Hz. lia.
  - pose proof (total_insert sz k (f b) m) as Ht.
    rewrite Hk in Ht; simpl in Ht. lia.
Qed.

(** X8. In every state the registry reaches when no module changes
    identity, the modules counted through the by-type index, over all its
    types, are as many as [GetAllModulesCount] counts through the by-id
    index. *)
Theorem countAllTypes_GetAllModulesCount impl w :
  reachable everyone impl w → countAllTypes w = GetAllModulesCount w.
Proof.
  induction 1 as [|impl' module w Hid Hreach IH
                  |impl' range module w Hid Hr Hreach IH].
  - reflexivity.
  - pose proof (reachable_byType_in_byId impl w Hreach) as Ha.
    revert IH. unfold countAllTypes, GetAllModulesCount, GetAllModules.
    change (countFullModuleMap (Some ?fm)) with (count fm).
    RegisterModule_outcomes impl' module w; simpl; [done..|].
    intros Hfree IH.
    pose proof (total_upd count (Type_ (impl' module))
                  (upd (GenericId (impl' module))
                     (insert (SpecificId (impl' module)) module))
                  (registeredModulesByType w) count_empty) as Ht.
    rewrite (count_upd_insert _ _ module (registeredModulesById w)) by done.
    rewrite (count_upd_insert _ _ module) in Ht; [lia|].
    destruct (index (default ∅ (registeredModulesByType w
                                  !! Type_ (impl' module))
                       !! GenericId (impl' module))
                (SpecificId (impl' module))) as [m|] eqn:Hm; [|done].
    assert (byId_at w (GenericId (impl' module)) (SpecificId (impl' module))
            = Some m) as Hm'; [|by rewrite byId_at_GetModuleById, Hfree in Hm'].
    apply (Ha (Type_ (impl' module))). unfold byType_at, GetModulesByType.
    destruct (registeredModulesByType w !! Type_ (impl' module)); simpl in *;
      [done|]. by rewrite lookup_empty in Hm.
  - pose proof (reachable_byType_in_byId impl w Hreach) as Ha.
    assert (consistent everyone impl' w) as Hw.
    { apply (consistent_same_identity _ impl); [done|].
      by apply reachable_consistent. }
    revert IH. unfold countAllTypes, GetAllModulesCount, GetAllModules.
    change (countFullModuleMap (Some ?fm)) with (count fm).
    UnregisterModule_outcomes impl' range module w Hr; simpl; [|done].
    intros id Hf Hfound IH.
    rewrite (range_find_specific everyone impl' module w Hw range id I Hr Hf)
      in *.
    pose proof (Ha _ _ _ _ Hfound) as Hid'.
    pose proof (count_prune_delete _ _ module (registeredModulesById w) Hid').
    unfold byType_at, GetModulesByType in Hfound.
    destruct (registeredModulesByType w !! Type_ (impl' module)) as [fm|]
      eqn:Hfm; simpl in Hfound; [|done].
    pose proof (total_prune count (Type_ (impl' module))
                  (prune (GenericId (impl' module))
                     (delete (SpecificId (impl' module))))
                  (registeredModulesByType w) fm count_empty Hfm).
    pose proof (count_prune_delete _ _ module fm Hfound). lia.
Qed.

Lemma countAllTypes_GetAllModulesCount_witness :
  countAllTypes example_world = 2.
Proof.
  rewrite (countAllTypes_GetAllModulesCount example_impl example_world
             (example_world_reachable _)).
  reflexivity.
Defined.

(** ** The hook log *)

(** X9. In every state the registry reaches, whatever the modules do with
    their identity, each module held by the by-id index or by the by-type
    index has had its [Register] hook invoked. *)
Theorem registered_modules_were_hooked stable impl w :
  reachable stable impl w →
  (∀ g s m, GetModuleById g s w = Some m → CallRegister m ∈ hookCalls w) ∧
  (∀ t g s m,
     index (index (GetModulesByType t w) g) s = Some m →
     CallRegister m ∈ hookCalls w).
Proof.
  induction 1 as [|impl' module w Hid Hreach [IH1 IH2]
                  |impl' range module w Hid Hr Hreach [IH1 IH2]].
  - split.
    + intros g s m Hm. unfold GetModuleById in Hm; simpl in Hm.
      by rewrite lookup_empty in Hm.
    + intros t g s m Hm. unfold GetModulesByType in Hm; simpl in Hm.
      by rewrite lookup_empty in Hm.
  - revert IH1 IH2. unfold GetModuleById, GetModulesByType.
    RegisterModule_outcomes impl' module w; simpl; [done| |].
    + intros IH1 IH2. split.
      * intros g s m Hm. apply elem_of_app. left. by apply (IH1 g s).
      * intros t g s m Hm. apply elem_of_app. left. by apply (IH2 t g s).
    + intros _ IH1 IH2. split.
      * intros g s m. rewrite index_upd_insert, elem_of_app.
        case_decide; [intros [= <-]; right; apply list_elem_of_here|].
        intros Hm. left. by apply (IH1 g s).
      * intros t g s m. rewrite index3_upd_insert, elem_of_app.
        case_decide; [intros [= <-]; right; apply list_elem_of_here|].
        intros Hm. left. by apply (IH2 t g s).
  - revert IH1 IH2. unfold GetModuleById, GetModulesByType.
    UnregisterModule_outcomes impl' range module w Hr; simpl; [|done].
    intros id _ _ IH1 IH2. split.
    + intros g s m. rewrite index_prune_delete.
      case_decide; [done|]. apply IH1.
    + intros t g s m. rewrite index3_prune_delete.
      case_decide; [done|]. apply IH2.
Qed.

Lemma registered_modules_were_hooked_witness :
  CallRegister (ModuleAt 2) ∈ hookCalls example_world.
Proof.
  destruct (registered_modules_were_hooked (λ _, False) example_impl
              example_world (example_world_reachable _)) as [Hid _].
  apply (Hid "complete-module" "specific"). reflexivity.
Defined.

(** * Further properties of the base implementation *)

(** The identity fields through a sequence of [Configure] and [SetReady]
    calls. *)
Lemma GenericModule_identity_fixed_aux gm calls :
  GenericModule.GenericId (foldl mutate gm calls)
    = GenericModule.GenericId gm ∧
  GenericModule.SpecificId (foldl mutate gm calls)
    = GenericModule.SpecificId gm ∧
  GenericModule.Type_ (foldl mutate gm calls) = GenericModule.Type_ gm.
Proof.
  revert gm. induction calls as [|c calls IH]; intros gm; simpl; [done|].
  destruct (IH (mutate gm c)) as (-> & -> & ->). by destruct c.
Qed.

(** X10. No sequence of [Configure] and [SetReady] calls on a
    [GenericModule] changes what [Name], [Version], [GenericId],
    [SpecificId] and [Type] return, and its hooks return no error: a module
    that is, or embeds, a [GenericModule] keeps the identity it was built
    with. *)
Theorem GenericModule_identity_fixed gm calls :
  GenericModule.Name (foldl mutate gm calls) = GenericModule.Name gm ∧
  GenericModule.Version (foldl mutate gm calls) = GenericModule.Version gm ∧
  GenericModule.GenericId (foldl mutate gm calls)
    = GenericModule.GenericId gm ∧
  GenericModule.SpecificId (foldl mutate gm calls)
    = GenericModule.SpecificId gm ∧
  GenericModule.Type_ (foldl mutate gm calls) = GenericModule.Type_ gm ∧
  GenericModule.Register (foldl mutate gm calls) = None ∧
  GenericModule.Unregister (foldl mutate gm calls) = None.
Proof.
  revert gm. induction calls as [|c calls IH]; intros gm; simpl; [done|].
  destruct (IH (mutate gm c)) as (-> & -> & -> & -> & -> & _).
  by destruct c.
Qed.

(** X11. A registered module whose methods are those of a [GenericModule]
    can be unregistered after any sequence of [Configure] and [SetReady]
    calls on it: [UnregisterModule] finds it and returns no error. *)
Theorem UnregisterModule_after_mutations stable impl impl' range module gm calls w :
  stable module →
  range_order range →
  reachable stable impl w →
  impl module = GenericModule.methods gm →
  impl' module = GenericModule.methods (foldl mutate gm calls) →
  GetModuleById (GenericModule.GenericId gm) (GenericModule.SpecificId gm) w
    = Some module →
  (UnregisterModule impl' range module w).1 = None ∧
  GetModuleById (GenericModule.GenericId gm) (GenericModule.SpecificId gm)
    (UnregisterModule impl' range module w).2 = None.
Proof.
  intros Hst Hr Hreach Himpl Himpl' Hget.
  destruct (GenericModule_identity_fixed_aux gm calls) as (Hg & Hs & Ht).
  apply reachable_consistent in Hreach as (Hk & Hb & _).
  assert (byType_at w (Type_ (impl' module)) (GenericId (impl' module))
            (SpecificId (impl' module)) = Some module) as Hreg.
  { rewrite Himpl'; simpl. rewrite Hg, Hs, Ht.
    specialize (Hb _ _ _ Hst Hget). by rewrite Himpl in Hb. }
  UnregisterModule_outcomes impl' range module w Hr; simpl.
  - intros id Hf Hfound. split; [done|].
    unfold GetModuleById; simpl. rewrite index_prune_delete.
    rewrite decide_True; [done|]. rewrite Himpl'; simpl. by rewrite Hg, Hs.
  - intros Hno. by destruct (Hno (SpecificId (impl' module))).
Qed.

Lemma UnregisterModule_after_mutations_witness :
  (UnregisterModule
     (λ _, GenericModule.methods
             (foldl mutate simplePluginModule.1
                [DoConfigure None; DoSetReady true]))
     map_to_list (ModuleAt 1) example_world).1 = None.
Proof.
  apply (UnregisterModule_after_mutations (λ m, m = ModuleAt 1) example_impl
           (λ _, GenericModule.methods
                   (foldl mutate simplePluginModule.1
                      [DoConfigure None; DoSetReady true]))
           map_to_list (ModuleAt 1) simplePluginModule.1
           [DoConfigure None; DoSetReady true] example_world eq_refl
           range_order_map_to_list (example_world_reachable _)
           eq_refl eq_refl eq_refl).
Defined.

(** X12. [NewGenericModule] gives the module a parameter map of its own: the
    pointer it stores was not allocated before, points to an empty map
    afterwards, and no other map of the heap is changed; a second module
    built next gets a different pointer.  The module is not ready and
    answers the strings it was built with. *)
Theorem NewGenericModule_allocates name version genericId specificId moduleType h :
  (∃ p,
     GenericModule.Parameters
       (NewGenericModule name version genericId specificId moduleType h).1
       = Some p ∧
     h !! p = None ∧
     (NewGenericModule name version genericId specificId moduleType h).2 !! p
       = Some ∅ ∧
     ∀ q, q ≠ p →
       (NewGenericModule name version genericId specificId moduleType h).2 !! q
       = h !! q) ∧
  (∀ name' version' genericId' specificId' moduleType',
     GenericModule.Parameters
       (NewGenericModule name' version' genericId' specificId' moduleType'
          (NewGenericModule name version genericId specificId moduleType h).2).1
     ≠ GenericModule.Parameters
         (NewGenericModule name version genericId specificId moduleType h).1) ∧
  GenericModule.Ready
    (NewGenericModule name version genericId specificId moduleType h).1
    = false ∧
  GenericModule.Name
    (NewGenericModule name version genericId specificId moduleType h).1
    = name ∧
  GenericModule.Version
    (NewGenericModule name version genericId specificId moduleType h).1
    = version ∧
  GenericModule.GenericId
    (NewGenericModule name version genericId specificId moduleType h).1
    = genericId ∧
  GenericModule.SpecificId
    (NewGenericModule name version genericId specificId moduleType h).1
    = specificId ∧
  GenericModule.Type_
    (NewGenericModule name version genericId specificId moduleType h).1
    = moduleType.
Proof.
  split; [|split; [|done]].
  - exists (fresh (dom h)). simpl. split; [done|]. split; [|split].
    + apply not_elem_of_dom, is_fresh.
    + apply lookup_insert_eq.
    + intros q Hq. by apply lookup_insert_ne.
  - intros name' version' genericId' specificId' moduleType'. simpl.
    intros [= Heq]. apply (is_fresh (dom (<[fresh (dom h) := ∅]> h))).
    rewrite Heq. apply elem_of_dom. rewrite lookup_insert_eq. by eexists.
Qed.

(** * Properties of the complete module *)

(** X13. [Configure] of the complete module panics on a nil pointer.  On a
    map without the key [text1] it returns an error and leaves the module
    as it was.  On a map with the key it returns no error, the module is
    ready, and [DoWork] then writes the value of [text1] and the value of
    [text2], which is the empty string when the map has no [text2]. *)
Theorem CompleteModule_Configure_outcomes h cm :
  CompleteModule.Configure None h cm = Panics ∧
  (∀ p params,
     h !! p = Some params →
     params !! "text1" = None →
     CompleteModule.Configure (Some p) h cm =
     Returns (Some (Errorf "required parameter text1 is missing" []), cm)) ∧
  (∀ p params v,
     h !! p = Some params →
     params !! "text1" = Some v →
     ∃ cm',
       CompleteModule.Configure (Some p) h cm = Returns (None, cm') ∧
       SingleId.GenericModule.Ready (CompleteModule.base cm') = true ∧
       CompleteModule.text1 cm' = v ∧
       CompleteModule.text2 cm' = default "" (params !! "text2") ∧
       CompleteModule.DoWork cm' =
       (None, ["text1 : " +:+ v;
               "text2 : " +:+ default "" (params !! "text2")])).
Proof.
  split; [done|]. split.
  - intros p params Hp Hv. unfold CompleteModule.Configure; simpl.
    by rewrite Hp, Hv.
  - intros p params v Hp Hv. eexists. unfold CompleteModule.Configure; simpl.
    rewrite Hp, Hv. by repeat split.
Qed.

Lemma CompleteModule_Configure_outcomes_witness :
  ∃ cm',
    CompleteModule.Configure (Some 1%positive)
      {[ 1%positive := {[ "text1" := "This is text1" ]} ]}
      (CompleteModule.new ∅).1 = Returns (None, cm') ∧
    CompleteModule.DoWork cm' =
    (None, ["text1 : This is text1"; "text2 : "]).
Proof.
  destruct (CompleteModule_Configure_outcomes
              {[ 1%positive := {[ "text1" := "This is text1" ]} ]}
              (CompleteModule.new ∅).1) as (_ & _ & Hok).
  destruct (Hok 1%positive {[ "text1" := "This is text1" ]} "This is text1"
              eq_refl eq_refl) as (cm' & Hc & _ & _ & _ & Hw).
  exists cm'. split; [exact Hc|exact Hw].
Defined.

(** X14. The map returned by [Parameters] of the complete module is newly
    allocated and holds the key [text1]: [Configure] with it succeeds as it
    is, and [DoWork] then writes an empty [text1] and the default [text2];
    after [text1] has been set to a value in that map, [Configure] succeeds
    and [DoWork] writes that value and the default [text2]. *)
Theorem CompleteModule_Parameters_Configure cm h :
  ∃ p,
    (CompleteModule.Parameters cm h).1 = Some p ∧
    h !! p = None ∧
    (∀ q, q ≠ p → (CompleteModule.Parameters cm h).2 !! q = h !! q) ∧
    (∃ cm',
       CompleteModule.Configure (Some p) (CompleteModule.Parameters cm h).2 cm
         = Returns (None, cm') ∧
       CompleteModule.DoWork cm'
         = (None, ["text1 : "; "text2 : Default text"])) ∧
    (∀ v, ∃ cm',
       CompleteModule.Configure (Some p)
         (alter (insert "text1" v) p (CompleteModule.Parameters cm h).2) cm
         = Returns (None, cm') ∧
       CompleteModule.DoWork cm'
         = (None, ["text1 : " +:+ v; "text2 : Default text"])).
Proof.
  exists (fresh (dom h)). split; [done|]. split; [|split; [|split]].
  - apply not_elem_of_dom, is_fresh.
  - intros q Hq. simpl. by rewrite lookup_insert_ne.
  - eexists. unfold CompleteModule.Configure; simpl.
    rewrite lookup_insert_eq; simpl. by rewrite lookup_insert_eq.
  - intros v. eexists. unfold CompleteModule.Configure; simpl.
    rewrite lookup_alter_eq, lookup_insert_eq; simpl.
    rewrite lookup_insert_eq. rewrite lookup_insert_ne by done.
    rewrite lookup_insert_ne by done. by rewrite lookup_insert_eq.
Qed.

Lemma configure_all_ready calls cm errs cm' :
  configure_all calls cm = Returns (errs, cm') →
  SingleId.GenericModule.Ready (CompleteModule.base cm') =
  if decide (None ∈ errs) then true
  else SingleId.GenericModule.Ready (CompleteModule.base cm).
Proof.
  revert cm errs. induction calls as [|[p h] calls IH]; intros cm errs; simpl.
  - intros [= <- <-]. rewrite decide_False; [done|]. apply not_elem_of_nil.
  - unfold CompleteModule.Configure at 1.
    destruct (p ≫= (h !!.)) as [params|]; [|done].
    destruct (params !! "text1") as [v|].
    + destruct (configure_all calls _) as [[errs0 cm0]|] eqn:Hrest; [|done].
      intros [= <- <-].
      destruct (decide (None ∈ None :: errs0)) as [_|Hn];
        [|destruct Hn; apply list_elem_of_here].
      rewrite (IH _ _ Hrest). by case_decide.
    + destruct (configure_all calls cm) as [[errs0 cm0]|] eqn:Hrest; [|done].
      intros [= <- <-]. rewrite (IH _ _ Hrest).
      destruct (decide (None ∈ errs0)) as [Hin|Hin].
      * rewrite decide_True; [done|]. by apply list_elem_of_further.
      * rewrite decide_False; [done|]. intros Hin'.
        apply elem_of_cons in Hin' as [?|?]; done.
Qed.

(** X15. After a sequence of [Configure] calls on the module built by
    [init], none of which panicked, [DoWork] returns no error exactly when
    one of the calls returned no error; otherwise it returns "module not
    ready" and writes nothing.  A failed [Configure] never takes readiness
    back. *)
Theorem CompleteModule_DoWork_ready calls h errs cm :
  configure_all calls (CompleteModule.new h).1 = Returns (errs, cm) →
  ((CompleteModule.DoWork cm).1 = None ↔ None ∈ errs) ∧
  (None ∉ errs →
   CompleteModule.DoWork cm = (Some (Errorf "module not ready" []), [])).
Proof.
  intros Hrun. apply configure_all_ready in Hrun. simpl in Hrun.
  unfold CompleteModule.DoWork. rewrite Hrun.
  destruct (decide (None ∈ errs)); simpl; by split.
Qed.

Lemma CompleteModule_DoWork_ready_witness :
  ∃ cm,
    configure_all [(Some 1%positive, {[ 1%positive := ∅ ]});
                   (Some 1%positive,
                    {[ 1%positive := {[ "text1" := "a" ]} ]})]
      (CompleteModule.new ∅).1
    = Returns ([Some (Errorf "required parameter text1 is missing" []); None],
               cm) ∧
    None ∈ [Some (Errorf "required parameter text1 is missing" []);
            (None : option error)] ∧
    (CompleteModule.DoWork cm).1 = None.
Proof.
  eexists. split; [reflexivity|].
  assert (None ∈ [Some (Errorf "required parameter text1 is missing" []);
                  (None : option error)]) as Hin
    by (apply list_elem_of_further, list_elem_of_here).
  split; [exact Hin|].
  pose proof (CompleteModule_DoWork_ready
                [(Some 1%positive, {[ 1%positive := ∅ ]});
                 (Some 1%positive, {[ 1%positive := {[ "text1" := "a" ]} ]})]
                ∅ _ _ eq_refl) as [Hiff _].
  apply Hiff. exact Hin.
Defined.

(** X16. No sequence of [Configure] calls on a complete module changes the
    name, version, id and type it answers, nor the parameter pointer of its
    embedded [GenericModule]: the configured map is read, not kept. *)
Theorem CompleteModule_identity_fixed calls cm errs cm' :
  configure_all calls cm = Returns (errs, cm') →
  SingleId.GenericModule.Name (CompleteModule.base cm')
    = SingleId.GenericModule.Name (CompleteModule.base cm) ∧
  SingleId.GenericModule.Version (CompleteModule.base cm')
    = SingleId.GenericModule.Version (CompleteModule.base cm) ∧
  SingleId.GenericModule.Id (CompleteModule.base cm')
    = SingleId.GenericModule.Id (CompleteModule.base cm) ∧
  SingleId.GenericModule.Type_ (CompleteModule.base cm')
    = SingleId.GenericModule.Type_ (CompleteModule.base cm) ∧
  SingleId.GenericModule.Parameters (CompleteModule.base cm')
    = SingleId.GenericModule.Parameters (CompleteModule.base cm) ∧
  length errs = length calls.
Proof.
  revert cm errs. induction calls as [|[p h] calls IH]; intros cm errs; simpl.
  - by intros [= <- <-].
  - unfold CompleteModule.Configure at 1.
    destruct (p ≫= (h !!.)) as [params|]; [|done].
    destruct (params !! "text1") as [v|].
    + destruct (configure_all calls _) as [[errs0 cm0]|] eqn:Hrest; [|done].
      intros [= <- <-].
      destruct (IH _ _ Hrest) as (-> & -> & -> & -> & -> & Hlen).
      simpl. by rewrite Hlen.
    + destruct (configure_all calls cm) as [[errs0 cm0]|] eqn:Hrest; [|done].
      intros [= <- <-].
      destruct (IH _ _ Hrest) as (-> & -> & -> & -> & -> & Hlen).
      simpl. by rewrite Hlen.
Qed.

Lemma CompleteModule_identity_fixed_witness :
  ∃ cm',
    configure_all [(Some 1%positive, {[ 1%positive := ∅ ]});
                   (Some 1%positive,
                    {[ 1%positive := {[ "text1" := "a" ]} ]})]
      (CompleteModule.new ∅).1
    = Returns ([Some (Errorf "required parameter text1 is missing" []); None],
               cm') ∧
    SingleId.GenericModule.Id (CompleteModule.base cm') = "complete-module".
Proof.
  eexists. split; [reflexivity|].
  eapply (CompleteModule_identity_fixed
            [(Some 1%positive, {[ 1%positive := ∅ ]});
             (Some 1%positive, {[ 1%positive := {[ "text1" := "a" ]} ]})]
            (CompleteModule.new ∅).1).
  reflexivity.
Defined.

(** * The earlier registry and the later one *)

(** ** Default instances through the update patterns *)

Lemma lookup_defaults (fm : FullModuleMap) g :
  defaults fm !! g = index (fm !! g) "".
Proof. unfold defaults. by rewrite lookup_omap. Qed.

Lemma defaults_empty : defaults ∅ = ∅.
Proof. apply omap_empty. Qed.

Lemma defaults_upd_insert g (m : Module) (fm : FullModuleMap) :
  defaults (upd g (insert "" m) fm) = <[g := m]> (defaults fm).
Proof.
  rewrite upd_insert. unfold defaults.
  apply omap_insert_Some, lookup_insert_eq.
Qed.

Lemma defaults_prune_delete g (fm : FullModuleMap) :
  defaults (prune g (delete "") fm) = delete g (defaults fm).
Proof.
  apply map_eq; intros g'.
  rewrite lookup_defaults, index_prune_delete, lookup_delete, lookup_defaults.
  destruct (decide (g = g')) as [<-|Hg].
  - by rewrite decide_True.
  - by rewrite decide_False by (by intros [? ?]).
Qed.

Lemma only_defaults_empty : only_defaults ∅.
Proof. intros g b Hb. by rewrite lookup_empty in Hb. Qed.

Lemma defaults_empty_inv (fm : FullModuleMap) :
  only_defaults fm → defaults fm = ∅ → fm = ∅.
Proof.
  intros Hfm He. apply map_empty; intros g.
  destruct (fm !! g) as [b|] eqn:Hb; [|done].
  destruct (Hfm g b Hb) as [m ->].
  apply (f_equal (.!! g)) in He.
  rewrite lookup_defaults, Hb, lookup_empty in He. simpl in He.
  by rewrite lookup_singleton_eq in He.
Qed.

Lemma only_defaults_prune_delete g (fm : FullModuleMap) :
  only_defaults fm → only_defaults (prune g (delete "") fm).
Proof.
  intros Hfm g' b. rewrite lookup_prune. case_decide as Hg; [|by apply Hfm].
  destruct (fm !! g) as [b0|] eqn:Hb0; simpl; [|done].
  destruct (Hfm g b0 Hb0) as [m ->].
  by rewrite delete_singleton_eq, decide_True.
Qed.

Lemma count_defaults (fm : FullModuleMap) :
  only_defaults fm → count fm = size (defaults fm).
Proof.
  induction fm as [|g b fm Hg IH] using map_ind; intros Hfm.
  - unfold defaults. by rewrite count_empty, omap_empty, map_size_empty.
  - destruct (Hfm g b) as [m ->]; [apply lookup_insert_eq|].
    rewrite count_insert_fresh by done. unfold defaults.
    rewrite (omap_insert_Some _ _ _ _ m) by apply lookup_singleton_eq.
    rewrite map_size_insert_None by (by rewrite lookup_omap, Hg).
    rewrite map_size_singleton. unfold defaults in IH. rewrite IH; [lia|].
    intros g' b' Hb'. apply (Hfm g').
    rewrite lookup_insert_ne; [done|]. intros <-. by rewrite Hg in Hb'.
Qed.

(** Where the modules are those of the earlier form seen as default
    instances, a consistent state holds default instances only. *)
Lemma consistent_only_defaults impl1 w :
  consistent everyone (λ m, as_default (impl1 m)) w →
  (∀ t fm, registeredModulesByType w !! t = Some fm → only_defaults fm) ∧
  only_defaults (registeredModulesById w).
Proof.
  intros (Hk & Hb & He1 & He2 & He3).
  assert (∀ b : ModuleMap,
            b ≠ ∅ → (∀ s m, b !! s = Some m → s = "") →
            ∃ m, b = {[ "" := m ]}) as Hsingle.
  { intros b Hne Hkeys. apply map_choose in Hne as (s & m & Hs).
    pose proof (Hkeys s m Hs) as ->. exists m.
    apply map_eq; intros s'. destruct (decide (s' = "")) as [->|Hs'].
    - by rewrite lookup_singleton_eq.
    - rewrite lookup_singleton_ne by done.
      destruct (b !! s') as [m'|] eqn:Hm'; [|done].
      by destruct (Hs' (Hkeys s' m' Hm')). }
  split.
  - intros t fm Hfm g b Hg. apply Hsingle; [by apply (He2 t fm Hfm g)|].
    intros s m Hs.
    destruct (Hk t g s m I) as (_ & _ & <-); [|done].
    unfold byType_at, GetModulesByType. by rewrite Hfm; simpl; rewrite Hg.
  - intros g b Hg. apply Hsingle; [by apply (He3 g)|].
    intros s m Hs.
    assert (byId_at w g s = Some m) as Hid
      by (unfold byId_at, GetModulesByGenericId; by rewrite Hg).
    by destruct (Hk _ _ _ _ I (Hb _ _ _ I Hid)) as (_ & _ & <-).
Qed.

(** ** The calls of the earlier registry are those of the later one on the
    default instances *)

Lemma flatten_inserted id t (module : Module) w calls :
  SingleId.mkWorld
    (upd t (insert id module) (defaults <$> registeredModulesByType w))
    (<[id := module]> (defaults (registeredModulesById w))) calls
  = flatten (mkWorld (upd t (upd id (insert "" module))
                        (registeredModulesByType w))
                     (upd id (insert "" module) (registeredModulesById w))
                     calls).
Proof.
  unfold flatten; simpl. f_equal.
  - rewrite (upd_insert t (insert id module)).
    rewrite (upd_insert t (upd id (insert "" module))).
    rewrite fmap_insert, defaults_upd_insert, lookup_fmap.
    destruct (registeredModulesByType w !! t); simpl; [done|].
    unfold defaults. by rewrite omap_empty.
  - by rewrite defaults_upd_insert.
Qed.

Lemma flatten_RegisterModule impl1 module w :
  (SingleId.RegisterModule impl1 module (flatten w)).2
  = flatten (RegisterModule (λ m, as_default (impl1 m)) module w).2.
Proof.
  unfold SingleId.RegisterModule. simpl. rewrite lookup_defaults.
  destruct (index (registeredModulesById w !! SingleId.Id (impl1 module)) "")
    as [m|] eqn:Hget.
  - by rewrite (RegisterModule_collision (λ m, as_default (impl1 m)) module w
                  m Hget).
  - destruct (SingleId.Register (impl1 module)) as [err|] eqn:Hhook.
    + by rewrite (RegisterModule_hook_failure (λ m, as_default (impl1 m))
                    module w err Hget Hhook).
    + rewrite (RegisterModule_inserted (λ m, as_default (impl1 m)) module w
                 Hget Hhook).
      apply flatten_inserted.
Qed.

(** X17. Registering a module in the earlier registry is registering it in
    the later one as the default instance of its id, in any state: the
    state returned holds the default instances of the state the later
    registry returns, both calls succeed or both fail, on a free id both
    return what the hook returned, and on a taken id both return their
    collision error. *)
Theorem SingleId_RegisterModule_flatten impl1 module w :
  (SingleId.RegisterModule impl1 module (flatten w)).2
    = flatten (RegisterModule (λ m, as_default (impl1 m)) module w).2 ∧
  ((SingleId.RegisterModule impl1 module (flatten w)).1 = None ↔
   (RegisterModule (λ m, as_default (impl1 m)) module w).1 = None) ∧
  (GetDefaultModuleByGenericId (SingleId.Id (impl1 module)) w = None →
   (SingleId.RegisterModule impl1 module (flatten w)).1
     = SingleId.Register (impl1 module) ∧
   (RegisterModule (λ m, as_default (impl1 m)) module w).1
     = SingleId.Register (impl1 module)) ∧
  (is_Some (GetDefaultModuleByGenericId (SingleId.Id (impl1 module)) w) →
   (SingleId.RegisterModule impl1 module (flatten w)).1
     = Some (Errorf "id colision detected : %q" [SingleId.Id (impl1 module)]) ∧
   (RegisterModule (λ m, as_default (impl1 m)) module w).1
     = Some (Errorf "id colision detected : %q / %q"
               [SingleId.Id (impl1 module); ""])).
Proof.
  unfold SingleId.RegisterModule, GetDefaultModuleByGenericId. simpl.
  rewrite lookup_defaults.
  destruct (index (registeredModulesById w !! SingleId.Id (impl1 module)) "")
    as [m|] eqn:Hget.
  - rewrite (RegisterModule_collision (λ m, as_default (impl1 m)) module w m Hget).
    simpl. split; [done|]. split; [done|]. split; [done|]. done.
  - destruct (SingleId.Register (impl1 module)) as [err|] eqn:Hhook.
    + rewrite (RegisterModule_hook_failure (λ m, as_default (impl1 m)) module w
                 err Hget Hhook).
      simpl. split; [done|]. split; [done|]. split; [done|].
      by intros [? ?].
    + rewrite (RegisterModule_inserted (λ m, as_default (impl1 m)) module w
                 Hget Hhook).
      simpl. split; [apply flatten_inserted|]. split; [done|]. split; [done|].
      by intros [? ?].
Qed.

Lemma SingleId_RegisterModule_flatten_witness :
  (SingleId.RegisterModule
     (λ _, SingleId.mkMethods "Complete Module" "1.0.0" "complete-module"
             "sample-module" None None None false)
     (ModuleAt 6) (flatten init)).1 = None.
Proof.
  destruct (SingleId_RegisterModule_flatten
              (λ _, SingleId.mkMethods "Complete Module" "1.0.0"
                      "complete-module" "sample-module" None None None false)
              (ModuleAt 6) init) as (_ & _ & Hfree & _).
  destruct (Hfree eq_refl) as [Hold _]. exact Hold.
Defined.

Lemma fmap_defaults_prune t g (bt : gmap string FullModuleMap) fm :
  bt !! t = Some fm → only_defaults fm →
  defaults <$> prune t (prune g (delete "")) bt
  = prune t (delete g) (defaults <$> bt).
Proof.
  intros Hfm Hod. rewrite (prune_Some t _ bt fm) by done.
  rewrite (prune_Some t (delete g) (defaults <$> bt) (defaults fm))
    by (by rewrite lookup_fmap, Hfm).
  rewrite <-defaults_prune_delete.
  destruct (decide (prune g (delete "") fm = ∅)) as [He|He].
  - rewrite He, defaults_empty.
    rewrite decide_True by done. apply fmap_delete.
  - rewrite decide_False; [apply fmap_insert|].
    intros He'. apply He, defaults_empty_inv; [|done].
    by apply only_defaults_prune_delete.
Qed.

Lemma flatten_UnregisterModule impl1 range1 range module w :
  range_order range1 →
  range_order range →
  consistent everyone (λ m, as_default (impl1 m)) w →
  SingleId.UnregisterModule impl1 range1 module (flatten w)
  = ((UnregisterModule (λ m, as_default (impl1 m)) range module w).1,
     flatten (UnregisterModule (λ m, as_default (impl1 m)) range module w).2).
Proof.
  intros Hr1 Hr Hw. pose proof Hw as (Hk & _).
  destruct (consistent_only_defaults impl1 w Hw) as [Hod _].
  pose proof (range_find_bucket (λ m, as_default (impl1 m)) module w range Hr)
    as Hb. simpl in Hb.
  unfold SingleId.UnregisterModule; simpl. rewrite lookup_fmap.
  destruct (range_find module
              (from_option range []
                 (index (registeredModulesByType w
                           !! SingleId.Type_ (impl1 module))
                    (SingleId.Id (impl1 module))))) as [sid|] eqn:Hf.
  - destruct (Hk _ _ _ _ I Hb) as (_ & _ & Hs). simpl in Hs. subst sid.
    rewrite (UnregisterModule_removed (λ m, as_default (impl1 m)) module w
               range "" Hf). simpl.
    unfold byType_at, GetModulesByType in Hb.
    destruct (registeredModulesByType w !! SingleId.Type_ (impl1 module))
      as [fm|] eqn:Hfm; simpl in Hb; [|done]. simpl.
    assert (defaults fm !! SingleId.Id (impl1 module) = Some module) as Hd
      by (by rewrite lookup_defaults).
    assert (size (defaults fm) ≠ 0) as Hsz.
    { apply map_size_non_empty_iff. intros He.
      by rewrite He, lookup_empty in Hd. }
    destruct (Nat.eqb_spec (size (defaults fm)) 0) as [|_]; [done|]. simpl.
    destruct (range_find module (range1 (defaults fm))) as [id|] eqn:Hf1.
    2:{ rewrite range_find_None in Hf1.
        destruct (Hf1 (SingleId.Id (impl1 module))).
        by apply (elem_of_range range1). }
    apply range_find_Some, (elem_of_range range1) in Hf1; [|done].
    assert (id = SingleId.Id (impl1 module)) as ->.
    { rewrite lookup_defaults in Hf1.
      destruct (Hk (SingleId.Type_ (impl1 module)) id "" module I)
        as (_ & Hg & _); [|done].
      unfold byType_at, GetModulesByType. by rewrite Hfm. }
    unfold flatten; simpl. f_equal. f_equal.
    + rewrite (fmap_defaults_prune _ _ _ fm) by (by eauto). done.
    + by rewrite defaults_prune_delete.
  - rewrite (UnregisterModule_not_found (λ m, as_default (impl1 m)) module w
               range Hf). simpl.
    destruct (registeredModulesByType w !! SingleId.Type_ (impl1 module))
      as [fm|] eqn:Hfm; simpl; [|done].
    destruct (size (defaults fm) =? 0)%nat; simpl; [done|].
    destruct (range_find module (range1 (defaults fm))) as [id|] eqn:Hf1;
      [|done].
    apply range_find_Some, (elem_of_range range1) in Hf1; [|done].
    rewrite lookup_defaults in Hf1.
    assert (byType_at w (SingleId.Type_ (impl1 module)) id "" = Some module)
      as Hat by (unfold byType_at, GetModulesByType; by rewrite Hfm).
    destruct (Hk _ _ _ _ I Hat) as (_ & Hg & _). simpl in Hg. subst id.
    by destruct (Hb "").
Qed.

(** X18. In every state the later registry reaches with modules of the
    earlier form as default instances, unregistering a module in the
    earlier registry is unregistering it in the later one: the same error
    is returned, and the state returned holds the default instances of the
    state the later registry returns, whatever the iteration orders of the
    two loops. *)
Theorem SingleId_UnregisterModule_flatten impl1 range1 range module w :
  range_order range1 →
  range_order range →
  reachable everyone (λ m, as_default (impl1 m)) w →
  SingleId.UnregisterModule impl1 range1 module (flatten w)
  = ((UnregisterModule (λ m, as_default (impl1 m)) range module w).1,
     flatten (UnregisterModule (λ m, as_default (impl1 m)) range module w).2).
Proof.
  intros Hr1 Hr Hreach. apply flatten_UnregisterModule; [done..|].
  by apply reachable_consistent.
Qed.

Lemma example_world1_reachable :
  reachable everyone (λ m, as_default (example_impl1 m)) example_world1.
Proof.
  apply (reachable_RegisterModule _ _ (λ m, as_default (example_impl1 m)));
    [apply same_identity_refl|].
  apply (reachable_RegisterModule _ _ (λ m, as_default (example_impl1 m)));
    [apply same_identity_refl|].
  apply reachable_init.
Qed.

Lemma SingleId_UnregisterModule_flatten_witness :
  (SingleId.UnregisterModule example_impl1 map_to_list (ModuleAt 1)
     (flatten example_world1)).1 = None.
Proof.
  rewrite (SingleId_UnregisterModule_flatten example_impl1 map_to_list
             map_to_list (ModuleAt 1) example_world1 range_order_map_to_list
             range_order_map_to_list example_world1_reachable).
  reflexivity.
Defined.

(** X19. The queries of the earlier registry on the default instances of a
    state are those of the later registry: [GetModuleById] is
    [GetDefaultModuleByGenericId], an entry of [GetModulesByType] is the
    entry of the later one under the empty specific id; and in the states
    the later registry reaches with modules of the earlier form, the
    lengths of [GetAllModules] and of [GetModulesByType] are
    [GetAllModulesCount] and [GetModuleCountByType]. *)
Theorem SingleId_queries_flatten impl1 w :
  (∀ id, SingleId.GetModuleById id (flatten w)
         = GetDefaultModuleByGenericId id w) ∧
  (∀ t id, index (SingleId.GetModulesByType t (flatten w)) id
           = index (index (GetModulesByType t w) id) "") ∧
  (reachable everyone (λ m, as_default (impl1 m)) w →
   len (SingleId.GetAllModules (flatten w)) = GetAllModulesCount w ∧
   ∀ t, len (SingleId.GetModulesByType t (flatten w))
        = GetModuleCountByType t w).
Proof.
  split; [|split].
  - intros id. apply lookup_defaults.
  - intros t id. unfold SingleId.GetModulesByType, GetModulesByType; simpl.
    rewrite lookup_fmap.
    destruct (registeredModulesByType w !! t); simpl; [|done].
    apply lookup_defaults.
  - intros Hreach. apply reachable_consistent in Hreach.
    destruct (consistent_only_defaults impl1 w Hreach) as [Hod1 Hod2].
    split.
    + unfold SingleId.GetAllModules, GetAllModulesCount, GetAllModules; simpl.
      symmetry. by apply count_defaults.
    + intros t. unfold SingleId.GetModulesByType, GetModuleCountByType,
        GetModulesByType; simpl. rewrite lookup_fmap.
      destruct (registeredModulesByType w !! t) as [fm|] eqn:Hfm; simpl;
        [|done].
      symmetry. apply count_defaults. by apply (Hod1 t).
Qed.

Lemma SingleId_queries_flatten_witness :
  len (SingleId.GetModulesByType "sample-module" (flatten example_world1)) = 1.
Proof.
  destruct (SingleId_queries_flatten example_impl1 example_world1)
    as (_ & _ & Hcount).
  destruct (Hcount example_world1_reachable) as [_ Htype].
  rewrite Htype. reflexivity.
Defined.

(** ** The states of the earlier registry *)

Lemma flatten_init : flatten init = SingleId.init.
Proof. unfold flatten; simpl. by rewrite fmap_empty, defaults_empty. Qed.

Lemma as_default_same_identity impl1 impl1' :
  SingleId.same_identity impl1 impl1' →
  same_identity everyone (λ m, as_default (impl1 m))
                (λ m, as_default (impl1' m)).
Proof. intros Hid m _. simpl. by destruct (Hid m) as [-> ->]. Qed.

Lemma SingleId_reachable_flatten impl1 w1 :
  SingleId.reachable impl1 w1 →
  ∃ w, reachable everyone (λ m, as_default (impl1 m)) w ∧ flatten w = w1.
Proof.
  induction 1 as [|impl1' module w1 Hid _ (w & Hreach & <-)
                  |impl1' range1 module w1 Hid Hr1 _ (w & Hreach & <-)].
  - exists init. split; [apply reachable_init|apply flatten_init].
  - exists (RegisterModule (λ m, as_default (impl1' m)) module w).2. split.
    + apply reachable_RegisterModule; [|done].
      by apply as_default_same_identity.
    + symmetry. apply flatten_RegisterModule.
  - exists (UnregisterModule (λ m, as_default (impl1' m)) map_to_list
              module w).2. split.
    + apply reachable_UnregisterModule;
        [by apply as_default_same_identity|apply range_order_map_to_list|done].
    + rewrite (flatten_UnregisterModule impl1' range1 map_to_list module w);
        [done|done|apply range_order_map_to_list|].
      apply (consistent_same_identity _ (λ m, as_default (impl1 m)));
        [by apply as_default_same_identity|].
      by apply reachable_consistent.
Qed.

(** X20. Every state the earlier registry reaches when no module changes
    identity holds the default instances of a state the later registry
    reaches with the same modules seen as default instances. *)
Theorem SingleId_reachable_is_flatten impl1 w1 :
  SingleId.reachable impl1 w1 →
  ∃ w, reachable everyone (λ m, as_default (impl1 m)) w ∧ flatten w = w1.
Proof. apply SingleId_reachable_flatten. Qed.

Lemma SingleId_example_reachable :
  SingleId.reachable example_impl1
    (SingleId.RegisterModule example_impl1 (ModuleAt 1) SingleId.init).2.
Proof.
  apply (SingleId.reachable_RegisterModule _ example_impl1);
    [by intros m|apply SingleId.reachable_init].
Qed.

Lemma SingleId_reachable_is_flatten_witness :
  ∃ w, reachable everyone (λ m, as_default (example_impl1 m)) w ∧
       flatten w
       = (SingleId.RegisterModule example_impl1 (ModuleAt 1) SingleId.init).2.
Proof.
  apply (SingleId_reachable_is_flatten example_impl1 _
           SingleId_example_reachable).
Defined.

(** X21. In every state the earlier registry reaches when no module changes
    identity, a module is in the by-type index under some type and an id
    exactly when it is in the by-id index under that id; the type is then
    the one the module reports; and no type holds an empty bucket. *)
Theorem SingleId_indices_in_lock_step impl1 w1 :
  SingleId.reachable impl1 w1 →
  (∀ id m,
     (∃ t, index (SingleId.GetModulesByType t w1) id = Some m) ↔
     SingleId.GetModuleById id w1 = Some m) ∧
  (∀ t id m,
     index (SingleId.GetModulesByType t w1) id = Some m →
     SingleId.Type_ (impl1 m) = t ∧ SingleId.Id (impl1 m) = id) ∧
  (∀ t, SingleId.GetModulesByType t w1 ≠ Some ∅).
Proof.
  intros Hreach1.
  destruct (SingleId_reachable_flatten impl1 w1 Hreach1) as (w & Hreach & <-).
  pose proof (reachable_byType_in_byId _ w Hreach) as Ha.
  pose proof (reachable_consistent _ _ w Hreach) as Hw.
  destruct (consistent_only_defaults impl1 w Hw) as [Hod _].
  destruct Hw as (Hk & Hb & He1 & _).
  assert (∀ t id, index (SingleId.GetModulesByType t (flatten w)) id
                  = byType_at w t id "") as Hty.
  { intros t id. unfold SingleId.GetModulesByType, byType_at, GetModulesByType.
    simpl. rewrite lookup_fmap.
    destruct (registeredModulesByType w !! t); simpl; [|done].
    apply lookup_defaults. }
  assert (∀ id, SingleId.GetModuleById id (flatten w) = byId_at w id "") as Hi
    by (intros id; apply lookup_defaults).
  split; [|split].
  - intros id m. rewrite Hi. split.
    + intros [t Ht]. rewrite Hty in Ht. by apply (Ha t).
    + intros Hm. exists (SingleId.Type_ (impl1 m)). rewrite Hty.
      by apply (Hb _ _ _ I Hm).
  - intros t id m. rewrite Hty. intros Hm.
    by destruct (Hk _ _ _ _ I Hm) as (Ht & Hg & _).
  - intros t. unfold SingleId.GetModulesByType; simpl. rewrite lookup_fmap.
    destruct (registeredModulesByType w !! t) as [fm|] eqn:Hfm; simpl; [|done].
    intros [= He]. apply (He1 t fm Hfm).
    apply defaults_empty_inv; [by apply (Hod t)|done].
Qed.

Lemma SingleId_indices_in_lock_step_witness :
  SingleId.GetModuleById "simple-module-2"
    (SingleId.RegisterModule example_impl1 (ModuleAt 1) SingleId.init).2
  = Some (ModuleAt 1).
Proof.
  destruct (SingleId_indices_in_lock_step example_impl1 _
              SingleId_example_reachable) as (Hagree & _).
  apply Hagree. exists "dummy-module". reflexivity.
Defined.
